(** * AugustusCGP pipeline (cat/augustus_cgp.py): window planning and merging

    A shallow embedding of the scheduling logic of [augustus_cgp.py]:
    the loop of [setup] that cuts every chromosome into overlapping
    alignment chunks, the Toil job graph it builds, the regrouping done by
    [merge_results], and the files written by [join_genes] and
    [augustus_cgp].

    Python integers are unbounded and are modelled by [Z]; the model leaves
    out the platform's C [long] bound on the arguments of [xrange]. *)

From stdpp Require Import base list strings relations.
From Stdlib Require Import ZArith Lia DecimalString.

Open Scope Z_scope.

(** ** Python values used by the pipeline *)

(** The only exception the planning loop can raise by itself: [xrange]
    refuses a zero step ("xrange() arg 3 must not be zero"). *)
Inductive exn : Set :=
  | ValueError.

(** [get_len_of_range lo hi step] is the number of items of a range that
    climbs from [lo] to [hi] (excluded) by [step > 0]. *)
Definition get_len_of_range (lo hi step : Z) : Z :=
  if lo <? hi then (hi - lo - 1) / step + 1 else 0.

(** [xrange start stop step]: the items [start + i * step] below [stop]
    (above it for a negative step); a zero step raises. *)
Definition xrange (start stop step : Z) : exn + list Z :=
  if step =? 0 then inl ValueError
  else
    let n := if 0 <? step then get_len_of_range start stop step
             else get_len_of_range stop start (- step) in
    inr ((λ i : nat, start + Z.of_nat i * step) <$> seq 0 (Z.to_nat n)).

(** ** Arguments and windows *)

(** The fields of [args] read by the planning loop and by [cgp]. *)
Record Args : Type := mkArgs {
  chunksize : Z;
  overlap : Z;
  genomes : list string
}.

(** A window is the triple [(chrom, start, chunksize)] that the pipeline
    uses as dictionary key and prints in its marker lines. *)
Definition window : Type := string * Z * Z.

Definition w_chrom (w : window) : string := w.1.1.
Definition w_start (w : window) : Z := w.1.2.
Definition w_size (w : window) : Z := w.2.
Definition w_end (w : window) : Z := w_start w + w_size w.

(** The conditional expression of line 91 of [setup]. *)
Definition clip (args : Args) (chrom_size start : Z) : Z :=
  if start + chunksize args <=? chrom_size then chunksize args
  else chrom_size - start.

(** The inner loop of [setup] for one line [(chrom, chrom_size)] of the
    chromosome-size table: the windows in the order they are appended. *)
Definition chrom_windows (args : Args) (chrom : string) (chrom_size : Z)
  : exn + list window :=
  match xrange 0 chrom_size (chunksize args - overlap args) with
  | inl e => inl e
  | inr starts =>
      inr ((λ start, (chrom, start, clip args chrom_size start)) <$> starts)
  end.

(** [x] lies in the half-open interval of [w]. *)
Definition covers (w : window) (x : Z) : Prop :=
  w_start w <= x < w_end w.

(** Number of positions shared by the intervals of two windows. *)
Definition overlap_len (w1 w2 : window) : Z :=
  Z.max 0 (Z.min (w_end w1) (w_end w2) - Z.max (w_start w1) (w_start w2)).

(** The number of windows the loop makes for positive step. *)
Definition window_count (chrom_size step : Z) : nat :=
  Z.to_nat (get_len_of_range 0 chrom_size step).

(** ** Dictionaries

    A Python 2 [dict] is kept as its entries in insertion order, keys
    distinct.  Assigning to a key that is present replaces the value in
    place, assigning to a new key adds an entry. *)

Section Dict.

Context {K V : Type} `{EqDecision K}.

Definition dict_wf (d : list (K * V)) : Prop := NoDup d.*1.

Fixpoint dict_get (k : K) (d : list (K * V)) : option V :=
  match d with
  | [] => None
  | (k', v) :: d' => if decide (k' = k) then Some v else dict_get k d'
  end.

Fixpoint dict_set (k : K) (v : V) (d : list (K * V)) : list (K * V) :=
  match d with
  | [] => [(k, v)]
  | (k', v') :: d' =>
      if decide (k' = k) then (k', v) :: d' else (k', v') :: dict_set k v d'
  end.

End Dict.

(** The order in which [iteritems] (or a [for] loop over a dictionary)
    yields the entries is chosen by the interpreter, not by the program:
    CPython 2 follows its hash table, PyPy the insertion order.  An
    interpreter is therefore a parameter of the model: any enumeration
    that yields every entry once. *)
Record interp : Type := Interp {
  iteritems : ∀ K V : Type, list (K * V) → list (K * V);
  iteritems_perm : ∀ (K V : Type) (d : list (K * V)), iteritems K V d ≡ₚ d
}.

Arguments iteritems _ {K V} _.

(** Entries in insertion order. *)
Definition insertion_order : interp :=
  Interp (λ K V d, d) (λ K V d, reflexivity d).

(** Entries in the opposite of insertion order. *)
Definition reverse_order : interp :=
  Interp (λ K V d, reverse d) (λ K V d, reverse_Permutation d).

(** ** The file store *)

Definition FileID : Type := nat.

(** The job store holds the content of each global file, indexed by its
    identifier. *)
Definition fileStore : Type := list string.

Definition readGlobalFile (store : fileStore) (id : FileID) : option string :=
  store !! id.

Definition writeGlobalFile (store : fileStore) (content : string)
  : FileID * fileStore :=
  (length store, store ++ [content]).

(** ** [cgp]: the prediction on one chunk *)

(** The dictionary comprehension of line 144,
    [{genome: writeGlobalFile(genome + '.cgp.gff') for genome in args.genomes}];
    [cwd] is the working directory left by the [augustus] run, and a file
    that is not there makes [writeGlobalFile] raise. *)
Fixpoint cgp_gffs (cwd : string → option string) (gs : list string)
    (d : list (string * FileID)) (store : fileStore)
  : option (list (string * FileID) * fileStore) :=
  match gs with
  | [] => Some (d, store)
  | genome :: gs' =>
      match cwd (genome +:+ ".cgp.gff") with
      | None => None
      | Some content =>
          let '(id, store') := writeGlobalFile store content in
          cgp_gffs cwd gs' (dict_set genome id d) store'
      end
  end.

(** [cgp] after the external [augustus] run, which left [cwd] and wrote
    [log] on its standard output: the pair [(gff_chunks, stdout_file_id)]
    and the new store. *)
Definition cgp (cwd : string → option string) (log : string) (args : Args)
    (store : fileStore)
  : option ((list (string * FileID) * FileID) * fileStore) :=
  let '(stdout_file_id, store1) := writeGlobalFile store log in
  match cgp_gffs cwd (genomes args) [] store1 with
  | None => None
  | Some (gff_chunks, store2) => Some ((gff_chunks, stdout_file_id), store2)
  end.

(** ** [setup]: the job graph *)

(** Jobs are named by what they run; [i] is the position of the window in
    [results]. *)
Inductive job_id : Set :=
  | JSetup
  | JHal2maf (i : nat)
  | JCgp (i : nat)
  | JMerge.

Global Instance job_id_eq_dec : EqDecision job_id.
Proof. solve_decision. Defined.

(** [j.rv()]: a promise for the return value of job [j]. *)
Definition promise : Set := job_id.

Inductive job_fn : Type :=
  | SetupFn
  | Hal2mafFn (w : window)
  | CgpFn (maf_chunk : promise)
  | MergeResultsFn (results : list (window * promise)).

(** A job with the children and follow-ons added to it. *)
#[warnings="-register-all"] Inductive job : Type :=
  | Job (id : job_id) (fn : job_fn) (children followOns : list job).

Record setup_state : Type := SetupState {
  st_children : list job;
  st_results : list (window * promise)
}.

(** Lines 92 to 97: the [hal2maf] child, its [cgp] follow-on, and the
    entry appended to [results]. *)
Definition add_chunk (st : setup_state) (w : window) : setup_state :=
  let i := length (st_results st) in
  let cgp_job := Job (JCgp i) (CgpFn (JHal2maf i)) [] [] in
  let j := Job (JHal2maf i) (Hal2mafFn w) [] [cgp_job] in
  SetupState (st_children st ++ [j]) (st_results st ++ [(w, JCgp i)]).

(** The loop of lines 88 to 97 over the chromosome-size table, taken as
    the pairs [(chrom, int(chrom_size))] that [iter_lines] and [int] give.
    An exception leaves the loop with the state reached so far.  The
    unpacking and the conversion of lines 88 and 89, which raise on a
    malformed line, are in [setup_rows_loop] below. *)
Fixpoint setup_loop (args : Args) (chrom_sizes : list (string * Z))
    (st : setup_state) : exn * setup_state + setup_state :=
  match chrom_sizes with
  | [] => inr st
  | (chrom, chrom_size) :: rest =>
      match chrom_windows args chrom chrom_size with
      | inl e => inl (e, st)
      | inr ws => setup_loop args rest (fold_left add_chunk ws st)
      end
  end.

(** [setup]: the loop, then [merge_results] as follow-on of the job
    itself, with [results] as argument. *)
Definition setup (args : Args) (chrom_sizes : list (string * Z))
  : exn * setup_state + job :=
  match setup_loop args chrom_sizes (SetupState [] []) with
  | inl e => inl e
  | inr st =>
      inr (Job JSetup SetupFn (st_children st)
             [Job JMerge (MergeResultsFn (st_results st)) [] []])
  end.

(** The windows planned for the whole table, in the order of [results]. *)
Definition planned (args : Args) (chrom_sizes : list (string * Z))
  : option (list (window * promise)) :=
  match setup_loop args chrom_sizes (SetupState [] []) with
  | inl _ => None
  | inr st => Some (st_results st)
  end.

(** ** Toil's ordering of a job graph

    The contract of the Toil library for children and follow-ons: a child
    starts after its parent has finished; a follow-on of a job starts after
    that job, its children and all their successors have finished. *)

Fixpoint job_ids (j : job) : list job_id :=
  match j with
  | Job id _ cs fs => id :: flat_map job_ids cs ++ flat_map job_ids fs
  end.

(** Each job of the graph with the jobs it waits for; [pre] is what the
    root waits for. *)
Fixpoint prereqs (pre : list job_id) (j : job)
  : list (job_id * list job_id) :=
  match j with
  | Job id _ cs fs =>
      (id, pre) :: flat_map (prereqs [id]) cs
        ++ flat_map (prereqs (id :: flat_map job_ids cs)) fs
  end.

Record sched : Type := Sched {
  started : list job_id;
  finished : list job_id
}.

Inductive toil_step (g : job) : sched → sched → Prop :=
  | step_start (id : job_id) (pre : list job_id) (s : sched) :
      (id, pre) ∈ prereqs [] g →
      id ∉ started s →
      (∀ p, p ∈ pre → p ∈ finished s) →
      toil_step g s (Sched (id :: started s) (finished s))
  | step_finish (id : job_id) (s : sched) :
      id ∈ started s →
      id ∉ finished s →
      toil_step g s (Sched (started s) (id :: finished s)).

Definition toil_reachable (g : job) (s : sched) : Prop :=
  rtc (toil_step g) (Sched [] []) s.

(** ** [merge_results] *)

(** A resolved entry of [results]:
    [[chrom, start, chunksize, (gff_chunks, stdout_file_id)]]. *)
Definition chunk_result : Type := window * (list (string * FileID) * FileID).

(** Toil replaces each promise by the value its job returned. *)
Definition resolve (rv : promise → list (string * FileID) * FileID)
    (results : list (window * promise)) : list chunk_result :=
  (λ r, (r.1, rv r.2)) <$> results.

(** Line 160, [gff_chunks_by_genome[genome][(chrom, start, chunksize)] =
    gff_file_id], on a [defaultdict(dict)]. *)
Definition add_gff (w : window)
    (by_genome : list (string * list (window * FileID)))
    (entry : string * FileID) : list (string * list (window * FileID)) :=
  let '(genome, gff_file_id) := entry in
  dict_set genome
    (dict_set w gff_file_id (default [] (dict_get genome by_genome)))
    by_genome.

(** The body of the loop of lines 157 to 160. *)
Definition merge_step (py : interp)
    (acc : list (string * list (window * FileID)) * list (window * FileID))
    (r : chunk_result)
  : list (string * list (window * FileID)) * list (window * FileID) :=
  let '(w, (gff_chunks, stdout_file_id)) := r in
  (fold_left (add_gff w) (iteritems py gff_chunks) acc.1,
   dict_set w stdout_file_id acc.2).

(** [(gff_chunks_by_genome, stdout_file_ids)] after the loop. *)
Definition regroup (py : interp) (results : list chunk_result)
  : list (string * list (window * FileID)) * list (window * FileID) :=
  fold_left (merge_step py) results ([], []).

(** [merge_results]: the [join_genes] children, one per genome with that
    genome's dictionary as argument, in the order the loop of line 162
    adds them, and [stdout_file_ids].  The returned dictionary of promises
    has one entry for each of these children. *)
Definition merge_results (py : interp) (results : list chunk_result)
  : list (string * list (window * FileID)) * list (window * FileID) :=
  let '(gff_chunks_by_genome, stdout_file_ids) := regroup py results in
  ((λ e, (e.1, default [] (dict_get e.1 gff_chunks_by_genome)))
     <$> iteritems py gff_chunks_by_genome,
   stdout_file_ids).

(** ** Marker lines and written files *)

Definition nl : string := String (Ascii.ascii_of_nat 10) EmptyString.

(** [str(n)] for an integer. *)
Definition str_int (n : Z) : string := NilZero.string_of_int (Z.to_int n).

(** ['## BEGIN CHUNK chrom: {} start: {} chunksize: {}\n'.format(...)] *)
Definition marker (w : window) : string :=
  let '(chrom, start, chunksize) := w in
  "## BEGIN CHUNK chrom: " +:+ chrom +:+ " start: " +:+ str_int start
    +:+ " chunksize: " +:+ str_int chunksize +:+ nl.

(** The loop of lines 179 to 184 of [join_genes] over the entries yielded
    by [iteritems]: [raw] is what has been written to [raw_handle], [fofn]
    the chunks whose local paths have been written to [fofn_handle]. *)
Fixpoint join_genes_loop (store : fileStore) (items : list (window * FileID))
    (raw : string) (fofn : list FileID) : option (string * list FileID) :=
  match items with
  | [] => Some (raw, fofn)
  | (w, chunk) :: rest =>
      match readGlobalFile store chunk with
      | None => None
      | Some content =>
          join_genes_loop store rest (raw +:+ marker w +:+ content)
            (fofn ++ [chunk])
      end
  end.

(** The raw file of [join_genes] and the list of files given to the
    external [joingenes]. *)
Definition join_genes (py : interp) (store : fileStore)
    (gff_chunks : list (window * FileID)) : option (string * list FileID) :=
  join_genes_loop store (iteritems py gff_chunks) "" [].

(** The loop of lines 54 to 58 of [augustus_cgp]: [outf] is what has been
    written to the run's stdout file. *)
Fixpoint stdout_loop (store : fileStore) (items : list (window * FileID))
    (outf : string) : option string :=
  match items with
  | [] => Some outf
  | (w, stdout_file) :: rest =>
      match readGlobalFile store stdout_file with
      | None => None
      | Some content => stdout_loop store rest (outf +:+ marker w +:+ content)
      end
  end.

Definition write_stdout_file (py : interp) (store : fileStore)
    (stdout_file_ids : list (window * FileID)) : option string :=
  stdout_loop store (iteritems py stdout_file_ids) "".

(** One block of a written file: the marker line, then the content. *)
Definition block (w : window) (content : string) : string :=
  marker w +:+ content.

(** The blocks of [items] joined in the order of the list. *)
Fixpoint blocks (store : fileStore) (items : list (window * FileID))
  : option string :=
  match items with
  | [] => Some ""
  | (w, id) :: rest =>
      match readGlobalFile store id, blocks store rest with
      | Some content, Some tail => Some (block w content +:+ tail)
      | _, _ => None
      end
  end.

(** ** Closed forms of the plan and of the regrouping *)

(** The chain of jobs that [add_chunk] makes for the window at position
    [i] of [results]. *)
Definition chain (i : nat) (w : window) : job :=
  Job (JHal2maf i) (Hal2mafFn w) [] [Job (JCgp i) (CgpFn (JHal2maf i)) [] []].

(** The chunks of [genome] in [results]: one entry for each window whose
    [gff_chunks] has the genome, in the order of the list. *)
Definition genome_chunks (genome : string) (results : list chunk_result)
  : list (window * FileID) :=
  omap (λ r : chunk_result, pair r.1 <$> dict_get genome r.2.1) results.

(** The standard output file of each window, in the order of the list. *)
Definition stdout_files (results : list chunk_result)
  : list (window * FileID) :=
  (λ r : chunk_result, (r.1, r.2.2)) <$> results.

(** The state of [setup] once the windows [ws] have been added. *)
Definition state_of (ws : list window) : setup_state :=
  SetupState (imap chain ws) (imap (λ i w, (w, JCgp i)) ws).

(** The windows of all the lines of the table, in the order of the
    table. *)
Definition table_windows (args : Args) (chrom_sizes : list (string * Z))
  : list window :=
  chrom_sizes ≫= λ line,
    match chrom_windows args line.1 line.2 with
    | inl _ => []
    | inr ws => ws
    end.

(** ** Shapes of a window list *)

(** Every window but the last one has the full length [chunksize]. *)
Definition all_but_last_full (args : Args) (ws : list window) : Prop :=
  ∀ (i : nat) w,
    ws !! i = Some w → (S i < length ws)%nat → w_size w = chunksize args.

(** Every two neighbours but the final two share exactly [overlap]
    positions. *)
Definition overlaps_exact (args : Args) (ws : list window) : Prop :=
  ∀ (i : nat) wi wj,
    ws !! i = Some wi → ws !! S i = Some wj → (S (S i) < length ws)%nat →
    overlap_len wi wj = overlap args.

(** The entries of a per-genome dictionary are in the order of the window
    starts. *)
Definition sorted_by_start (items : list (window * FileID)) : Prop :=
  ∀ (i j : nat) a b,
    (i < j)%nat → items !! i = Some a → items !! j = Some b →
    w_start a.1 <= w_start b.1.

(** ** A sequential run of the job graph *)

(** The jobs that have run once [setup] and the chains of the first [k]
    windows are through, the latest first. *)
Fixpoint ran (k : nat) : list job_id :=
  match k with
  | O => [JSetup]
  | S k' => JCgp k' :: JHal2maf k' :: ran k'
  end.

(** ** Amount of sequence in a plan *)

(** The sum of the lengths of the windows: what [hal2maf] extracts in
    all. *)
Definition total_length (ws : list window) : Z :=
  foldr (λ w acc, w_size w + acc) 0 ws.

(** ** [augustus_cgp]: export of the results *)

(** The two ways in which the loop of lines 59 to 63 can fail: a genome
    without an entry in one of the path dictionaries of [args], and a file
    that is not in the store. *)
Inductive export_error : Type :=
  | KeyError (genome : string)
  | NoSuchFile (id : FileID).

(** [t.exportFile(id, 'file://' + path)] on a file system kept as a
    dictionary from path to content. *)
Definition exportFile (store : fileStore) (id : FileID) (path : string)
    (fs : list (string * string))
  : export_error * list (string * string) + list (string * string) :=
  match readGlobalFile store id with
  | None => inl (NoSuchFile id, fs)
  | Some content => inr (dict_set path content fs)
  end.

(** The body of the loop of lines 59 to 63 for one genome;
    [raw_gtf], [gtf] and [gp] are [args.augustus_cgp_raw_gtf],
    [args.augustus_cgp_gtf] and [args.augustus_cgp_gp]. *)
Definition export_genome (store : fileStore)
    (raw_gtf gtf gp : list (string * string))
    (fs : list (string * string))
    (item : string * (FileID * FileID * FileID))
  : export_error * list (string * string) + list (string * string) :=
  let '(genome, (raw_gtf_file_id, joined_gtf_file_id, joined_gp_file_id)) :=
    item in
  match dict_get genome raw_gtf with
  | None => inl (KeyError genome, fs)
  | Some raw_path =>
      match exportFile store raw_gtf_file_id raw_path fs with
      | inl e => inl e
      | inr fs1 =>
          match dict_get genome gtf with
          | None => inl (KeyError genome, fs1)
          | Some gtf_path =>
              match exportFile store joined_gtf_file_id gtf_path fs1 with
              | inl e => inl e
              | inr fs2 =>
                  match dict_get genome gp with
                  | None => inl (KeyError genome, fs2)
                  | Some gp_path =>
                      exportFile store joined_gp_file_id gp_path fs2
                  end
              end
          end
      end
  end.

(** The loop over the entries that [results.iteritems()] yields; an
    exception leaves it with the files written so far. *)
Fixpoint export_loop (store : fileStore)
    (raw_gtf gtf gp : list (string * string))
    (items : list (string * (FileID * FileID * FileID)))
    (fs : list (string * string))
  : export_error * list (string * string) + list (string * string) :=
  match items with
  | [] => inr fs
  | item :: rest =>
      match export_genome store raw_gtf gtf gp fs item with
      | inl e => inl e
      | inr fs' => export_loop store raw_gtf gtf gp rest fs'
      end
  end.

Definition export_results (py : interp) (store : fileStore)
    (raw_gtf gtf gp : list (string * string))
    (results : list (string * (FileID * FileID * FileID)))
    (fs : list (string * string))
  : export_error * list (string * string) + list (string * string) :=
  export_loop store raw_gtf gtf gp (iteritems py results) fs.

(** The paths that the loop writes for [items], in the order it writes
    them; a genome without a path contributes none for that file. *)
Definition export_targets (raw_gtf gtf gp : list (string * string))
    (items : list (string * (FileID * FileID * FileID))) : list string :=
  items ≫= λ item,
    omap (dict_get item.1) [raw_gtf; gtf; gp].

(** ** [setup] on the rows of the chromosome-size file *)





(** ** Proof steps *)

(** Unfolds the projections of a window given as a triple. *)
Ltac window_simpl :=
  unfold covers, overlap_len, w_end, w_start, w_size in *; simpl in *.

(** One step of a run in which job [id], waiting for [pre], starts. *)
Ltac toil_start id pre :=
  eapply rtc_l;
  [ apply (step_start _ id pre);
    [ compute_done | compute_done | apply Forall_forall; compute_done ]
  | simpl ].

(** One step of a run in which job [id] finishes. *)
Ltac toil_finish id :=
  eapply rtc_l;
  [ apply (step_finish _ id); [ compute_done | compute_done ] | simpl ].

(** * Properties *)

(** ** The planning loop on one chromosome *)

Section Planner.

Variable args : Args.
Variable chrom : string.
Variable L : Z.

Hypothesis step_pos : 0 < chunksize args - overlap args.

Lemma window_count_lt (k : nat) :
  (k < window_count L (chunksize args - overlap args))%nat ↔
  Z.of_nat k * (chunksize args - overlap args) < L.
Proof using step_pos.
  unfold window_count, get_len_of_range.
  set (step := chunksize args - overlap args) in *.
  destruct (Z.ltb_spec 0 L) as [HL | HL].
  - assert (Hq : 0 <= (L - 0 - 1) / step) by (apply Z.div_pos; lia).
    split; intros Hk.
    + assert (Z.of_nat k <= (L - 0 - 1) / step) by lia.
      assert (step * ((L - 0 - 1) / step) <= L - 0 - 1)
        by (apply Z.mul_div_le; lia).
      nia.
    + assert (Z.of_nat k <= (L - 0 - 1) / step); [| lia].
      apply Z.div_le_lower_bound; lia.
  - split; intros Hk; [simpl in Hk; lia | nia].
Qed.

Lemma chrom_windows_eq :
  chrom_windows args chrom L =
  inr ((λ k : nat,
          (chrom, Z.of_nat k * (chunksize args - overlap args),
           clip args L (Z.of_nat k * (chunksize args - overlap args))))
         <$> seq 0 (window_count L (chunksize args - overlap args))).
Proof using step_pos.
  unfold chrom_windows, xrange.
  destruct (Z.eqb_spec (chunksize args - overlap args) 0) as [? | _]; [lia |].
  destruct (Z.ltb_spec 0 (chunksize args - overlap args)) as [_ | ?]; [| lia].
  f_equal. rewrite <- list_fmap_compose. reflexivity.
Qed.

(** The windows are those at the multiples of the step below [L]. *)
Lemma chrom_windows_lookup (ws : list window) (k : nat) (w : window) :
  chrom_windows args chrom L = inr ws →
  ws !! k = Some w ↔
  Z.of_nat k * (chunksize args - overlap args) < L ∧
  w = (chrom, Z.of_nat k * (chunksize args - overlap args),
       clip args L (Z.of_nat k * (chunksize args - overlap args))).
Proof using step_pos.
  rewrite chrom_windows_eq. intros [= <-].
  rewrite list_lookup_fmap, <- window_count_lt.
  destruct (decide (k < window_count L (chunksize args - overlap args))%nat)
    as [Hlt | Hge].
  - rewrite lookup_seq_lt by done. simpl. split.
    + intros [= <-]. auto.
    + intros [_ ->]. reflexivity.
  - rewrite lookup_seq_ge by lia. simpl. split; [discriminate | tauto].
Qed.

Lemma chrom_windows_length (ws : list window) (k : nat) :
  chrom_windows args chrom L = inr ws →
  (k < length ws)%nat ↔ Z.of_nat k * (chunksize args - overlap args) < L.
Proof using step_pos.
  intros Hws. rewrite <- lookup_lt_is_Some. split.
  - intros [w Hw]. apply (chrom_windows_lookup _ _ _ Hws) in Hw. tauto.
  - intros Hk. eexists. apply (chrom_windows_lookup _ _ _ Hws). eauto.
Qed.

Lemma clip_min (s : Z) :
  clip args L s = Z.min (chunksize args) (L - s).
Proof. unfold clip. destruct (Z.leb_spec (s + chunksize args) L); lia. Qed.

End Planner.

(** ** The job graph of [setup] *)

Lemma add_chunk_state_of (ws : list window) (w : window) :
  add_chunk (state_of ws) w = state_of (ws ++ [w]).
Proof.
  unfold add_chunk, state_of. simpl.
  rewrite !imap_app, !length_imap. simpl. by rewrite Nat.add_0_r.
Qed.

Lemma add_chunks_state_of (ws0 ws : list window) :
  fold_left add_chunk ws (state_of ws0) = state_of (ws0 ++ ws).
Proof.
  revert ws0. induction ws as [| w ws IH]; intros ws0; simpl.
  - by rewrite app_nil_r.
  - rewrite add_chunk_state_of, IH. by rewrite <- app_assoc.
Qed.

Section Setup.

Variable args : Args.

Hypothesis step_pos : 0 < chunksize args - overlap args.

(** With a positive step the loop never raises: it adds the windows of
    each line in turn. *)
Lemma setup_loop_state_of (chrom_sizes : list (string * Z)) (ws0 : list window) :
  setup_loop args chrom_sizes (state_of ws0)
  = inr (state_of (ws0 ++ table_windows args chrom_sizes)).
Proof using step_pos.
  revert ws0. induction chrom_sizes as [| [chrom L] rest IH]; intros ws0.
  - simpl. by rewrite app_nil_r.
  - unfold table_windows. rewrite bind_cons. simpl.
    destruct (chrom_windows args chrom L) as [e | ws] eqn:Hws;
      [rewrite chrom_windows_eq in Hws by done; discriminate |].
    rewrite add_chunks_state_of, IH. by rewrite <- app_assoc.
Qed.

Lemma planned_eq (chrom_sizes : list (string * Z)) :
  planned args chrom_sizes
  = Some (imap (λ i w, (w, JCgp i)) (table_windows args chrom_sizes)).
Proof using step_pos.
  unfold planned. change (SetupState [] []) with (state_of []).
  by rewrite (setup_loop_state_of chrom_sizes []).
Qed.

Lemma setup_eq (chrom_sizes : list (string * Z)) :
  setup args chrom_sizes
  = inr (Job JSetup SetupFn (imap chain (table_windows args chrom_sizes))
           [Job JMerge
              (MergeResultsFn
                 (imap (λ i w, (w, JCgp i)) (table_windows args chrom_sizes)))
              [] []]).
Proof using step_pos.
  unfold setup. change (SetupState [] []) with (state_of []).
  by rewrite (setup_loop_state_of chrom_sizes []).
Qed.

(** The windows of one chromosome are pairwise distinct. *)
Lemma chrom_windows_NoDup (chrom : string) (L : Z) (ws : list window) :
  chrom_windows args chrom L = inr ws → NoDup ws.
Proof using step_pos.
  rewrite chrom_windows_eq by done. intros [= <-].
  apply NoDup_fmap_2; [| apply NoDup_seq].
  intros i j [= Hij]. nia.
Qed.

Lemma chrom_windows_chrom (chrom : string) (L : Z) (ws : list window) (w : window) :
  chrom_windows args chrom L = inr ws → w ∈ ws → w_chrom w = chrom.
Proof using step_pos.
  rewrite chrom_windows_eq by done. intros [= <-] Hin.
  apply list_elem_of_fmap in Hin as (k & -> & _). reflexivity.
Qed.

(** Every start is a multiple of the step. *)
Lemma chrom_windows_start (chrom : string) (L : Z) (ws : list window) (w : window) :
  chrom_windows args chrom L = inr ws → w ∈ ws →
  ∃ k : nat, w_start w = Z.of_nat k * (chunksize args - overlap args).
Proof using step_pos.
  rewrite chrom_windows_eq by done. intros [= <-] Hin.
  apply list_elem_of_fmap in Hin as (k & -> & _). by exists k.
Qed.

(** When no chromosome is listed twice, the windows of the whole table are
    pairwise distinct. *)
Lemma table_windows_NoDup (chrom_sizes : list (string * Z)) :
  NoDup chrom_sizes.*1 → NoDup (table_windows args chrom_sizes).
Proof using step_pos.
  intros Hnd. unfold table_windows. apply NoDup_bind.
  - intros [c1 L1] [c2 L2] w Hin1 Hin2 Hw1 Hw2. simpl in *.
    destruct (chrom_windows args c1 L1) as [| ws1] eqn:H1;
      [by apply elem_of_nil in Hw1 |].
    destruct (chrom_windows args c2 L2) as [| ws2] eqn:H2;
      [by apply elem_of_nil in Hw2 |].
    assert (c1 = c2) as <-.
    { rewrite <- (chrom_windows_chrom _ _ _ _ H1 Hw1).
      apply (chrom_windows_chrom _ _ _ _ H2 Hw2). }
    f_equal.
    apply list_elem_of_lookup in Hin1 as [i1 Hi1].
    apply list_elem_of_lookup in Hin2 as [i2 Hi2].
    assert (i1 = i2) as <-.
    { apply (NoDup_lookup _ _ _ c1 Hnd); rewrite list_lookup_fmap.
      - by rewrite Hi1.
      - by rewrite Hi2. }
    congruence.
  - intros [c L] _. simpl.
    destruct (chrom_windows args c L) as [| ws] eqn:Hws; [apply NoDup_nil_2 |].
    by apply (chrom_windows_NoDup c L).
  - eapply NoDup_fmap_1. exact Hnd.
Qed.

Lemma table_windows_start (chrom_sizes : list (string * Z)) (w : window) :
  w ∈ table_windows args chrom_sizes →
  ∃ k : nat, w_start w = Z.of_nat k * (chunksize args - overlap args).
Proof using step_pos.
  unfold table_windows. rewrite list_elem_of_bind.
  intros ([c L] & Hw & _). simpl in Hw.
  destruct (chrom_windows args c L) as [| ws] eqn:Hws;
    [by apply elem_of_nil in Hw |].
  by apply (chrom_windows_start c L ws).
Qed.

End Setup.

Lemma imap_pair_fst {A B : Type} (f : nat → B) (l : list A) :
  (imap (λ i a, (a, f i)) l).*1 = l.
Proof.
  rewrite fmap_imap. simpl.
  rewrite <- (list_fmap_id l) at 2. rewrite <- imap_const.
  apply imap_ext. done.
Qed.

Lemma table_windows_single (args : Args) (chrom : string) (L : Z)
    (ws : list window) :
  chrom_windows args chrom L = inr ws → table_windows args [(chrom, L)] = ws.
Proof.
  intros Hws. unfold table_windows. rewrite bind_singleton. simpl.
  by rewrite Hws.
Qed.

(** ** Coverage and shape of the windows *)

(** C1. On valid input the loop returns a window list, the one [setup]
    puts in [results] for a table with this chromosome alone, that covers
    [0, L) exactly: a position is below [L] iff some window holds it, every
    window lies inside [0, L] and is not empty, two windows never share
    more than [overlap] positions, and a chromosome of length 0 gives the
    empty list instead of an error. *)
Theorem C1_coverage (args : Args) (chrom : string) (L : Z) :
  0 <= L → 0 < chunksize args → 0 <= overlap args < chunksize args →
  ∃ ws, chrom_windows args chrom L = inr ws ∧
    planned args [(chrom, L)] = Some (imap (λ i w, (w, JCgp i)) ws) ∧
    (∀ x, 0 <= x < L ↔ ∃ w, w ∈ ws ∧ covers w x) ∧
    (∀ w, w ∈ ws → 0 <= w_start w ∧ w_start w < w_end w ∧ w_end w <= L) ∧
    (∀ (i j : nat) wi wj, (i < j)%nat → ws !! i = Some wi → ws !! j = Some wj →
       overlap_len wi wj <= overlap args) ∧
    (L = 0 → ws = []).
Proof.
  intros HL HC HO.
  assert (Hstep : 0 < chunksize args - overlap args) by lia.
  destruct (chrom_windows args chrom L) as [e | ws] eqn:Hws;
    [rewrite chrom_windows_eq in Hws by done; discriminate |].
  exists ws. split; [reflexivity |].
  split; [by rewrite planned_eq, (table_windows_single _ _ _ ws) |].
  pose proof (chrom_windows_lookup args chrom L Hstep ws) as Hlk.
  specialize (λ k w, Hlk k w Hws).
  set (step := chunksize args - overlap args) in *.
  split; [| split; [| split]].
  - intros x. split.
    + intros Hx. set (k := Z.to_nat (x / step)).
      assert (Hq : 0 <= x / step) by (apply Z.div_pos; lia).
      assert (Hlo : step * (x / step) <= x) by (apply Z.mul_div_le; lia).
      assert (Hhi : x < step * Z.succ (x / step))
        by (apply Z.mul_succ_div_gt; lia).
      exists (chrom, Z.of_nat k * step, clip args L (Z.of_nat k * step)).
      split.
      * apply list_elem_of_lookup. exists k. apply Hlk. split; [| done].
        subst k. rewrite Z2Nat.id by done. lia.
      * window_simpl. rewrite clip_min. subst k. rewrite Z2Nat.id by done.
        lia.
    + intros (w & Hin & Hcov). apply list_elem_of_lookup in Hin as [k Hk].
      apply Hlk in Hk as [Hlt ->]. window_simpl.
      rewrite clip_min in Hcov. lia.
  - intros w Hin. apply list_elem_of_lookup in Hin as [k Hk].
    apply Hlk in Hk as [Hlt ->]. window_simpl. rewrite clip_min. nia.
  - intros i j wi wj Hij Hi Hj.
    apply Hlk in Hi as [Hilt ->]. apply Hlk in Hj as [Hjlt ->].
    window_simpl. rewrite !clip_min.
    assert (Z.of_nat i * step + step <= Z.of_nat j * step) by nia.
    lia.
  - intros ->. destruct ws as [| w ws]; [done |].
    destruct (proj1 (Hlk 0%nat w) eq_refl) as [Hlt _]. simpl in Hlt. lia.
Qed.

Lemma C1_coverage_witness :
  ∃ ws, chrom_windows (mkArgs 300 50 []) "chr1" 1000 = inr ws ∧
    planned (mkArgs 300 50 []) [("chr1", 1000)]
      = Some (imap (λ i w, (w, JCgp i)) ws) ∧
    (∀ x, 0 <= x < 1000 ↔ ∃ w, w ∈ ws ∧ covers w x) ∧
    (∀ w, w ∈ ws → 0 <= w_start w ∧ w_start w < w_end w ∧ w_end w <= 1000) ∧
    (∀ (i j : nat) wi wj, (i < j)%nat → ws !! i = Some wi → ws !! j = Some wj →
       overlap_len wi wj <= 50) ∧
    (1000 = 0 → ws = []).
Proof.
  apply (C1_coverage (mkArgs 300 50 []) "chr1" 1000); simpl; lia.
Defined.

(** C9. The example of the specification: a chromosome of length 1000 cut
    with chunk size 300 and overlap 50 gives the starts 0, 250, 500, 750
    with the lengths 300, 300, 300, 250, and these cover [0, 1000). *)
Theorem C9_example (chrom : string) (gs : list string) :
  chrom_windows (mkArgs 300 50 gs) chrom 1000 =
    inr [(chrom, 0, 300); (chrom, 250, 300); (chrom, 500, 300);
         (chrom, 750, 250)] ∧
  ∀ x, 0 <= x < 1000 ↔
       ∃ w, w ∈ [(chrom, 0, 300); (chrom, 250, 300); (chrom, 500, 300);
                 (chrom, 750, 250)] ∧ covers w x.
Proof.
  split; [reflexivity |]. intros x. split.
  - intros Hx.
    destruct (Z.lt_ge_cases x 300); [exists (chrom, 0, 300) |
      destruct (Z.lt_ge_cases x 550); [exists (chrom, 250, 300) |
        destruct (Z.lt_ge_cases x 800); [exists (chrom, 500, 300) |
          exists (chrom, 750, 250)]]];
      (split; [solve [repeat constructor] | window_simpl; lia]).
  - intros (w & Hin & Hcov).
    repeat (apply elem_of_cons in Hin as [-> | Hin]; [window_simpl; lia |]).
    by apply elem_of_nil in Hin.
Qed.

(** C4, as the code has it.  On valid input every window has the length
    [min chunksize (L - start)]; the last one has the length [L - start];
    a window followed by at least [m] others is full as soon as
    [overlap <= (m - 1) * (chunksize - overlap)], and with an overlap of at
    most 1 every window but the last is full. *)
Theorem C4_window_lengths (args : Args) (chrom : string) (L : Z) :
  0 <= L → 0 < chunksize args → 0 <= overlap args < chunksize args →
  ∃ ws, chrom_windows args chrom L = inr ws ∧
    (∀ w, w ∈ ws → w_size w = Z.min (chunksize args) (L - w_start w)) ∧
    (∀ w, last ws = Some w →
       w_size w = L - w_start w ∧ w_size w <= chunksize args) ∧
    (∀ (m i : nat) w,
       overlap args <= (Z.of_nat m - 1) * (chunksize args - overlap args) →
       ws !! i = Some w → (i + m < length ws)%nat →
       w_size w = chunksize args) ∧
    (overlap args <= 1 → all_but_last_full args ws).
Proof.
  intros HL HC HO.
  assert (Hstep : 0 < chunksize args - overlap args) by lia.
  destruct (chrom_windows args chrom L) as [e | ws] eqn:Hws;
    [rewrite chrom_windows_eq in Hws by done; discriminate |].
  exists ws. split; [reflexivity |].
  pose proof (λ k w, chrom_windows_lookup args chrom L Hstep ws k w Hws)
    as Hlk.
  pose proof (λ k, chrom_windows_length args chrom L Hstep ws k Hws) as Hlen.
  set (step := chunksize args - overlap args) in *.
  split; [| split; [| split]].
  - intros w Hin. apply list_elem_of_lookup in Hin as [k Hk].
    apply Hlk in Hk as [Hlt ->]. window_simpl. apply clip_min.
  - intros w Hlast. rewrite last_lookup in Hlast.
    assert (Hn : length ws ≠ 0%nat) by (destruct ws; [done | simpl; lia]).
    pose proof (proj2 (proj1 (Hlk _ _) Hlast)) as ->.
    assert (Hnot : ¬ Z.of_nat (length ws) * step < L)
      by (rewrite <- Hlen; lia).
    window_simpl. rewrite clip_min. nia.
  - intros m i w Hm Hi Him. apply Hlk in Hi as [_ ->].
    apply Hlen in Him. window_simpl. rewrite clip_min. nia.
  - intros HO1 i w Hi Hlast. apply Hlk in Hi as [_ ->].
    apply Hlen in Hlast. window_simpl. rewrite clip_min. nia.
Qed.

Lemma C4_window_lengths_witness :
  ∃ ws, chrom_windows (mkArgs 10 2 []) "chr1" 9 = inr ws ∧
    (∀ w, w ∈ ws → w_size w = Z.min 10 (9 - w_start w)) ∧
    (∀ w, last ws = Some w → w_size w = 9 - w_start w ∧ w_size w <= 10) ∧
    (∀ (m i : nat) w,
       2 <= (Z.of_nat m - 1) * (10 - 2) →
       ws !! i = Some w → (i + m < length ws)%nat → w_size w = 10) ∧
    (2 <= 1 → all_but_last_full (mkArgs 10 2 []) ws).
Proof.
  apply (C4_window_lengths (mkArgs 10 2 []) "chr1" 9); simpl; lia.
Defined.

(** C4 as stated fails: with chunk size 10 and overlap 2 a chromosome of
    length 9 gets the windows (0, 9) and (8, 1), and the first one is
    neither the last nor of length 10. *)
Lemma C4_counterexample :
  0 <= 9 ∧ 0 < chunksize (mkArgs 10 2 []) ∧
  0 <= overlap (mkArgs 10 2 []) < chunksize (mkArgs 10 2 []) ∧
  chrom_windows (mkArgs 10 2 []) "chr1" 9
    = inr [("chr1", 0, 9); ("chr1", 8, 1)] ∧
  ¬ all_but_last_full (mkArgs 10 2 []) [("chr1", 0, 9); ("chr1", 8, 1)].
Proof.
  repeat split; try (simpl; lia).
  intros Hfull. specialize (Hfull 0%nat ("chr1", 0, 9) eq_refl).
  simpl in Hfull. unfold w_size in Hfull. simpl in Hfull. lia.
Qed.

(** C5, as the code has it.  On valid input two neighbouring windows share
    [min overlap (L - start)] positions, [start] being that of the second:
    exactly [overlap] when the first has the full length and fewer when it
    is clipped.  With [2 * overlap <= chunksize + 1] every pair but the
    final one shares exactly [overlap] positions. *)
Theorem C5_consecutive_overlap (args : Args) (chrom : string) (L : Z) :
  0 <= L → 0 < chunksize args → 0 <= overlap args < chunksize args →
  ∃ ws, chrom_windows args chrom L = inr ws ∧
    (∀ (i : nat) wi wj, ws !! i = Some wi → ws !! S i = Some wj →
       overlap_len wi wj = Z.min (overlap args) (L - w_start wj) ∧
       (w_size wi = chunksize args → overlap_len wi wj = overlap args) ∧
       (w_size wi < chunksize args → overlap_len wi wj < overlap args)) ∧
    (2 * overlap args <= chunksize args + 1 → overlaps_exact args ws).
Proof.
  intros HL HC HO.
  assert (Hstep : 0 < chunksize args - overlap args) by lia.
  destruct (chrom_windows args chrom L) as [e | ws] eqn:Hws;
    [rewrite chrom_windows_eq in Hws by done; discriminate |].
  exists ws. split; [reflexivity |].
  pose proof (λ k w, chrom_windows_lookup args chrom L Hstep ws k w Hws)
    as Hlk.
  pose proof (λ k, chrom_windows_length args chrom L Hstep ws k Hws) as Hlen.
  set (step := chunksize args - overlap args) in *.
  split.
  - intros i wi wj Hi Hj.
    apply Hlk in Hi as [Hilt ->]. apply Hlk in Hj as [Hjlt ->].
    window_simpl. rewrite !clip_min. rewrite Nat2Z.inj_succ in *. nia.
  - intros H2 i wi wj Hi Hj Hlast.
    apply Hlk in Hi as [Hilt ->]. apply Hlk in Hj as [Hjlt ->].
    apply Hlen in Hlast.
    window_simpl. rewrite !clip_min. rewrite !Nat2Z.inj_succ in *. nia.
Qed.

Lemma C5_consecutive_overlap_witness :
  ∃ ws, chrom_windows (mkArgs 10 6 []) "chr1" 9 = inr ws ∧
    (∀ (i : nat) wi wj, ws !! i = Some wi → ws !! S i = Some wj →
       overlap_len wi wj = Z.min 6 (9 - w_start wj) ∧
       (w_size wi = 10 → overlap_len wi wj = 6) ∧
       (w_size wi < 10 → overlap_len wi wj < 6)) ∧
    (2 * 6 <= 10 + 1 → overlaps_exact (mkArgs 10 6 []) ws).
Proof.
  apply (C5_consecutive_overlap (mkArgs 10 6 []) "chr1" 9); simpl; lia.
Defined.

(** C5 as stated fails: with chunk size 10 and overlap 6 a chromosome of
    length 9 gets the windows (0, 9), (4, 5) and (8, 1); the first two are
    not the final pair and share 5 positions, not 6. *)
Lemma C5_counterexample :
  0 <= 9 ∧ 0 < chunksize (mkArgs 10 6 []) ∧
  0 <= overlap (mkArgs 10 6 []) < chunksize (mkArgs 10 6 []) ∧
  chrom_windows (mkArgs 10 6 []) "chr1" 9
    = inr [("chr1", 0, 9); ("chr1", 4, 5); ("chr1", 8, 1)] ∧
  overlap_len ("chr1", 0, 9) ("chr1", 4, 5) = 5 ∧
  ¬ overlaps_exact (mkArgs 10 6 [])
      [("chr1", 0, 9); ("chr1", 4, 5); ("chr1", 8, 1)].
Proof.
  repeat split; try (simpl; lia).
  intros Hex.
  specialize (Hex 0%nat ("chr1", 0, 9) ("chr1", 4, 5) eq_refl eq_refl).
  simpl in Hex. specialize (Hex ltac:(lia)). vm_compute in Hex. discriminate.
Qed.

(** ** Invalid chunk size and overlap *)

(** With a negative step the inner loop makes no window, whatever the
    (non-negative) chromosome length. *)
Lemma chrom_windows_neg_step (args : Args) (chrom : string) (L : Z) :
  chunksize args < overlap args → 0 <= L →
  chrom_windows args chrom L = inr [].
Proof.
  intros Hlt HL. unfold chrom_windows, xrange, get_len_of_range.
  destruct (Z.eqb_spec (chunksize args - overlap args) 0); [lia |].
  destruct (Z.ltb_spec 0 (chunksize args - overlap args)); [lia |].
  destruct (Z.ltb_spec L 0); [lia | reflexivity].
Qed.

Lemma chrom_windows_zero_step (args : Args) (chrom : string) (L : Z) :
  chunksize args = overlap args →
  chrom_windows args chrom L = inl ValueError.
Proof.
  intros Heq. unfold chrom_windows, xrange.
  destruct (Z.eqb_spec (chunksize args - overlap args) 0); [done | lia].
Qed.

(** C3, as the code has it.  The code has no check of its own.  When the
    chunk size equals the overlap, [xrange] raises on the first line of a
    table that is not empty, before any job is added.  When the chunk size
    is smaller than the overlap nothing is raised: no window is made for
    chromosomes of non-negative length, and [merge_results] is scheduled on
    an empty list. *)
Theorem C3_invalid_step (args : Args) (chrom_sizes : list (string * Z)) :
  chunksize args <= overlap args →
  (chunksize args = overlap args → chrom_sizes ≠ [] →
     setup args chrom_sizes = inl (ValueError, SetupState [] [])) ∧
  (chunksize args < overlap args → Forall (λ line, 0 <= line.2) chrom_sizes →
     setup args chrom_sizes =
       inr (Job JSetup SetupFn [] [Job JMerge (MergeResultsFn []) [] []])).
Proof.
  intros _. split.
  - intros Heq Hne. destruct chrom_sizes as [| [chrom L] rest]; [done |].
    unfold setup. simpl. by rewrite chrom_windows_zero_step.
  - intros Hlt Hall. unfold setup.
    assert (Hloop : setup_loop args chrom_sizes (SetupState [] [])
                    = inr (SetupState [] [])); [| by rewrite Hloop].
    induction Hall as [| [chrom L] rest HL _ IH]; [done |].
    simpl in *. by rewrite chrom_windows_neg_step.
Qed.

Lemma C3_invalid_step_witness :
  setup (mkArgs 10 10 []) [("chr1", 9)] = inl (ValueError, SetupState [] []) ∧
  setup (mkArgs 10 20 []) [("chr1", 9)] =
    inr (Job JSetup SetupFn [] [Job JMerge (MergeResultsFn []) [] []]).
Proof.
  split.
  - apply (C3_invalid_step (mkArgs 10 10 []) [("chr1", 9)]);
      [simpl; lia | reflexivity | discriminate].
  - apply (C3_invalid_step (mkArgs 10 20 []) [("chr1", 9)]);
      [simpl; lia | simpl; lia |].
    repeat constructor. simpl. lia.
Defined.

(** C3 as stated fails: with chunk size 100 and overlap 200 the loop raises
    nothing on a chromosome of length 1000; it returns the job graph with
    no window job at all. *)
Lemma C3_counterexample :
  chunksize (mkArgs 100 200 []) <= overlap (mkArgs 100 200 []) ∧
  setup (mkArgs 100 200 []) [("chr1", 1000)] =
    inr (Job JSetup SetupFn [] [Job JMerge (MergeResultsFn []) [] []]) ∧
  ¬ ∃ e st, setup (mkArgs 100 200 []) [("chr1", 1000)] = inl (e, st).
Proof.
  split; [simpl; lia |]. split; [reflexivity |].
  intros (e & st & Herr). discriminate Herr.
Qed.

(** ** Dictionaries *)

Section DictFacts.

Context {K V : Type} `{EqDecision K}.

Implicit Types (d : list (K * V)) (k : K) (v : V).

Lemma dict_get_None d k : dict_get k d = None ↔ k ∉ d.*1.
Proof.
  induction d as [| [k' v'] d IH]; simpl.
  - split; [intros _; apply not_elem_of_nil | done].
  - rewrite not_elem_of_cons. destruct (decide (k' = k)) as [-> | Hne].
    + split; [discriminate | intros [? _]; done].
    + rewrite IH. split; [intros ?; split; [congruence | done] | tauto].
Qed.

Lemma dict_get_Some d k v : dict_get k d = Some v → (k, v) ∈ d.
Proof.
  induction d as [| [k' v'] d IH]; simpl; [discriminate |].
  destruct (decide (k' = k)) as [-> | Hne].
  - intros [= ->]. left.
  - intros Hget. right. auto.
Qed.

Lemma dict_get_elem d k v : dict_wf d → (k, v) ∈ d → dict_get k d = Some v.
Proof.
  unfold dict_wf. induction d as [| [k' v'] d IH]; simpl.
  - intros _ Hin. by apply elem_of_nil in Hin.
  - rewrite NoDup_cons. intros [Hk' Hd] Hin.
    apply elem_of_cons in Hin as [[= -> ->] | Hin].
    + by rewrite decide_True.
    + rewrite decide_False; [auto |].
      intros ->. apply Hk'. apply list_elem_of_fmap. by exists (k, v).
Qed.

(** Two well-formed dictionaries with the same entries answer alike. *)
Lemma dict_get_perm d d' k : dict_wf d → d ≡ₚ d' → dict_get k d = dict_get k d'.
Proof.
  intros Hwf Hperm.
  assert (Hwf' : dict_wf d') by (unfold dict_wf in *; by rewrite <- Hperm).
  destruct (dict_get k d) as [v |] eqn:Hget.
  - symmetry. apply dict_get_elem; [done |].
    rewrite <- Hperm. by apply dict_get_Some.
  - symmetry. apply dict_get_None. rewrite <- Hperm. by apply dict_get_None.
Qed.

Lemma dict_get_set_eq d k v : dict_get k (dict_set k v d) = Some v.
Proof.
  induction d as [| [k' v'] d IH]; simpl.
  - by rewrite decide_True.
  - destruct (decide (k' = k)) as [-> | Hne]; simpl.
    + by rewrite decide_True.
    + by rewrite decide_False.
Qed.

Lemma dict_get_set_ne d k k' v :
  k ≠ k' → dict_get k' (dict_set k v d) = dict_get k' d.
Proof.
  intros Hne. induction d as [| [k0 v0] d IH]; simpl.
  - by rewrite decide_False.
  - destruct (decide (k0 = k)) as [-> | Hne0]; simpl.
    + by rewrite !decide_False.
    + by rewrite IH.
Qed.

(** Assigning to a new key adds the entry at the end. *)
Lemma dict_set_fresh d k v : k ∉ d.*1 → dict_set k v d = d ++ [(k, v)].
Proof.
  induction d as [| [k' v'] d IH]; simpl; [done |].
  rewrite not_elem_of_cons. intros [Hne Hd].
  rewrite decide_False by done. by rewrite IH.
Qed.

(** Assigning to a key that is there leaves the keys as they are. *)
Lemma dict_set_keys_present d k v : k ∈ d.*1 → (dict_set k v d).*1 = d.*1.
Proof.
  induction d as [| [k' v'] d IH]; intros Hin.
  - by apply elem_of_nil in Hin.
  - rewrite fmap_cons in Hin. cbn [dict_set].
    destruct (decide (k' = k)) as [-> | Hne]; rewrite !fmap_cons; [done |].
    apply elem_of_cons in Hin as [-> | Hin]; [done |]. by rewrite IH.
Qed.

Lemma dict_set_keys d k v :
  (dict_set k v d).*1 = if decide (k ∈ d.*1) then d.*1 else d.*1 ++ [k].
Proof.
  destruct (decide (k ∈ d.*1)) as [Hin | Hnin].
  - by apply dict_set_keys_present.
  - rewrite dict_set_fresh by done. by rewrite fmap_app.
Qed.

Lemma dict_set_wf d k v : dict_wf d → dict_wf (dict_set k v d).
Proof.
  unfold dict_wf. intros Hwf. rewrite dict_set_keys.
  destruct (decide (k ∈ d.*1)); [done |].
  apply NoDup_app. split; [done |]. split; [| apply NoDup_singleton].
  intros x Hx Hx'. apply list_elem_of_singleton in Hx' as ->. done.
Qed.

End DictFacts.

(** ** The regrouping of [merge_results] *)

(** The loop of line 159 over the chunks of one window: a genome that has
    a chunk gets it under the key [w], the others are left alone. *)
Lemma add_gffs_get (w : window) (items : list (string * FileID))
    (by_genome : list (string * list (window * FileID))) (g : string) :
  NoDup items.*1 →
  dict_get g (fold_left (add_gff w) items by_genome) =
    match dict_get g items with
    | Some fid => Some (dict_set w fid (default [] (dict_get g by_genome)))
    | None => dict_get g by_genome
    end.
Proof.
  revert by_genome. induction items as [| [g0 fid0] items IH];
    intros by_genome Hnd; [done |].
  rewrite fmap_cons in Hnd. apply NoDup_cons in Hnd as [Hg0 Hnd].
  cbn [fold_left dict_get]. rewrite IH by done.
  destruct (decide (g0 = g)) as [-> | Hne].
  - simpl in Hg0. apply dict_get_None in Hg0. rewrite Hg0. simpl.
    apply dict_get_set_eq.
  - simpl. rewrite dict_get_set_ne by done. reflexivity.
Qed.

Lemma genome_chunks_snoc (g : string) (rs : list chunk_result) (r : chunk_result) :
  genome_chunks g (rs ++ [r]) =
  genome_chunks g rs ++
    match dict_get g r.2.1 with Some fid => [(r.1, fid)] | None => [] end.
Proof.
  unfold genome_chunks. rewrite omap_app. f_equal. simpl.
  by destruct (dict_get g r.2.1).
Qed.

Lemma genome_chunks_keys (g : string) (rs : list chunk_result) (w : window) :
  w ∈ (genome_chunks g rs).*1 → w ∈ rs.*1.
Proof.
  intros Hin. apply list_elem_of_fmap in Hin as ([w' fid] & -> & Hin).
  apply list_elem_of_omap in Hin as (r & Hr & Hsome).
  destruct (dict_get g r.2.1); simplify_eq/=.
  apply list_elem_of_fmap. by exists r.
Qed.

Lemma stdout_files_keys (rs : list chunk_result) : (stdout_files rs).*1 = rs.*1.
Proof. unfold stdout_files. by rewrite <- list_fmap_compose. Qed.

Lemma regroup_snoc (py : interp) (rs : list chunk_result) (r : chunk_result) :
  regroup py (rs ++ [r]) = merge_step py (regroup py rs) r.
Proof. unfold regroup. by rewrite fold_left_app. Qed.

(** With distinct windows [stdout_file_ids] holds the standard output of
    every window, in the order of the list. *)
Lemma regroup_stdout (py : interp) (results : list chunk_result) :
  NoDup results.*1 → (regroup py results).2 = stdout_files results.
Proof.
  induction results as [| r rs IH] using rev_ind; intros Hnd; [done |].
  rewrite fmap_app in Hnd. apply NoDup_app in Hnd as (Hrs & Hfresh & _).
  rewrite regroup_snoc. destruct r as [w [gff_chunks out]].
  unfold merge_step. cbn [snd]. rewrite IH by done.
  rewrite dict_set_fresh.
  - unfold stdout_files. by rewrite fmap_app.
  - rewrite stdout_files_keys. intros Hin.
    apply (Hfresh w Hin). simpl. left.
Qed.

(** With distinct windows the dictionary of a genome holds its chunk for
    every window that has one, in the order of the list; a genome without
    any chunk has no dictionary. *)
Lemma regroup_by_genome (py : interp) (results : list chunk_result) (g : string) :
  NoDup results.*1 →
  Forall (λ r : chunk_result, dict_wf r.2.1) results →
  dict_get g (regroup py results).1 =
    match genome_chunks g results with [] => None | l => Some l end.
Proof.
  induction results as [| r rs IH] using rev_ind; intros Hnd Hwf; [done |].
  rewrite fmap_app in Hnd. apply NoDup_app in Hnd as (Hrs & Hfresh & _).
  apply Forall_app in Hwf as [Hwfs Hwfr]. rewrite Forall_singleton in Hwfr.
  specialize (IH Hrs Hwfs).
  rewrite regroup_snoc, genome_chunks_snoc.
  destruct r as [w [gff_chunks out]]. unfold merge_step. cbn [fst snd] in *.
  assert (Hperm := iteritems_perm py _ _ gff_chunks).
  assert (Hwfi : dict_wf (iteritems py gff_chunks))
    by (unfold dict_wf in *; by rewrite Hperm).
  rewrite add_gffs_get by done.
  rewrite (dict_get_perm _ gff_chunks) by done.
  rewrite IH.
  destruct (dict_get g gff_chunks) as [fid |].
  - assert (Hdef : default [] (match genome_chunks g rs with
                               | [] => None | l => Some l end)
                   = genome_chunks g rs) by (by destruct (genome_chunks g rs)).
    rewrite Hdef. rewrite dict_set_fresh.
    + by destruct (genome_chunks g rs).
    + intros Hin. apply genome_chunks_keys in Hin.
      apply (Hfresh w Hin). simpl. left.
  - by rewrite app_nil_r.
Qed.

Lemma regroup_by_genome_default (py : interp) (results : list chunk_result)
    (g : string) :
  NoDup results.*1 →
  Forall (λ r : chunk_result, dict_wf r.2.1) results →
  default [] (dict_get g (regroup py results).1) = genome_chunks g results.
Proof.
  intros Hnd Hwf. rewrite regroup_by_genome by done.
  by destruct (genome_chunks g results).
Qed.

Lemma resolve_keys (rv : promise → list (string * FileID) * FileID)
    (results : list (window * promise)) :
  (resolve rv results).*1 = results.*1.
Proof. unfold resolve. by rewrite <- list_fmap_compose. Qed.

Lemma genome_chunks_wf (g : string) (rs : list chunk_result) :
  NoDup rs.*1 → dict_wf (genome_chunks g rs).
Proof.
  unfold dict_wf. induction rs as [| r rs IH]; intros Hnd; [apply NoDup_nil_2 |].
  rewrite fmap_cons in Hnd. apply NoDup_cons in Hnd as [Hr Hrs].
  unfold genome_chunks. cbn [omap list_omap].
  destruct (dict_get g r.2.1) as [fid |]; simpl; [| by apply IH].
  apply NoDup_cons. split; [| by apply IH].
  intros Hin. by apply genome_chunks_keys in Hin.
Qed.

Lemma genome_chunks_elem (g : string) (rs : list chunk_result) (r : chunk_result)
    (fid : FileID) :
  r ∈ rs → dict_get g r.2.1 = Some fid → (r.1, fid) ∈ genome_chunks g rs.
Proof.
  intros Hin Hget. apply list_elem_of_omap. exists r. split; [done |].
  by rewrite Hget.
Qed.

(** C10, as the code has it.  With a positive chunk size, a smaller
    non-negative overlap and a table that lists no chromosome twice, [setup]
    plans windows whose
    triples [(chrom, start, chunksize)] are pairwise distinct, every start
    being a multiple of [chunksize - overlap].  Whatever the window jobs
    return, the dictionaries of [merge_results] then hold one standard
    output file for each window and, for each genome, one chunk for each
    window that has one for it: nothing is overwritten or dropped. *)
Theorem C10_distinct_windows (py : interp) (args : Args)
    (chrom_sizes : list (string * Z))
    (rv : promise → list (string * FileID) * FileID) :
  0 < chunksize args → 0 <= overlap args < chunksize args →
  NoDup chrom_sizes.*1 →
  (∀ p, dict_wf (rv p).1) →
  ∃ results, planned args chrom_sizes = Some results ∧
    NoDup results.*1 ∧
    (∀ w, w ∈ results.*1 →
       ∃ k : nat, w_start w = Z.of_nat k * (chunksize args - overlap args)) ∧
    (regroup py (resolve rv results)).2 = stdout_files (resolve rv results) ∧
    (∀ genome,
       default [] (dict_get genome (regroup py (resolve rv results)).1) =
       genome_chunks genome (resolve rv results)) ∧
    (∀ w p genome fid,
       (w, p) ∈ results → dict_get genome (rv p).1 = Some fid →
       dict_get w (regroup py (resolve rv results)).2 = Some (rv p).2 ∧
       ∃ chunks,
         dict_get genome (regroup py (resolve rv results)).1 = Some chunks ∧
         dict_get w chunks = Some fid).
Proof.
  intros HC HO Hnd Hrv.
  assert (Hstep : 0 < chunksize args - overlap args) by lia.
  eexists. split; [by apply planned_eq |].
  set (results := imap _ _).
  assert (Hndr : NoDup (resolve rv results).*1).
  { rewrite resolve_keys. unfold results. rewrite imap_pair_fst.
    by apply table_windows_NoDup. }
  assert (Hwf : Forall (λ r : chunk_result, dict_wf r.2.1) (resolve rv results)).
  { apply Forall_fmap, Forall_forall. intros r _. apply Hrv. }
  split; [by rewrite <- (resolve_keys rv) |].
  split.
  { intros w Hw. unfold results in Hw. rewrite imap_pair_fst in Hw.
    by eapply table_windows_start. }
  split; [by apply regroup_stdout |].
  split; [intros genome; by apply regroup_by_genome_default |].
  intros w p genome fid Hin Hget.
  assert (Hr : (w, rv p) ∈ resolve rv results).
  { apply list_elem_of_fmap. by exists (w, p). }
  split.
  - rewrite regroup_stdout by done. apply dict_get_elem.
    + unfold dict_wf. by rewrite stdout_files_keys.
    + apply list_elem_of_fmap. by exists (w, rv p).
  - pose proof (genome_chunks_elem genome _ (w, rv p) fid Hr Hget) as Hmem.
    rewrite regroup_by_genome by done.
    destruct (genome_chunks genome (resolve rv results)) as [| e l] eqn:Hgc;
      [by apply elem_of_nil in Hmem |].
    eexists. split; [done |]. apply dict_get_elem; [| done].
    rewrite <- Hgc. by apply genome_chunks_wf.
Qed.

Lemma C10_distinct_windows_witness :
  ∃ results,
    planned (mkArgs 300 50 ["a"; "b"]) [("chr1", 600); ("chr2", 100)]
      = Some results ∧
    NoDup results.*1 ∧
    (∀ w, w ∈ results.*1 → ∃ k : nat, w_start w = Z.of_nat k * (300 - 50)) ∧
    (regroup insertion_order (resolve (λ _, ([("a", 1%nat)], 0%nat)) results)).2
      = stdout_files (resolve (λ _, ([("a", 1%nat)], 0%nat)) results) ∧
    (∀ genome,
       default [] (dict_get genome
         (regroup insertion_order
            (resolve (λ _, ([("a", 1%nat)], 0%nat)) results)).1) =
       genome_chunks genome (resolve (λ _, ([("a", 1%nat)], 0%nat)) results)) ∧
    (∀ w p genome fid,
       (w, p) ∈ results → dict_get genome [("a", 1%nat)] = Some fid →
       dict_get w (regroup insertion_order
          (resolve (λ _, ([("a", 1%nat)], 0%nat)) results)).2 = Some 0%nat ∧
       ∃ chunks,
         dict_get genome (regroup insertion_order
            (resolve (λ _, ([("a", 1%nat)], 0%nat)) results)).1 = Some chunks ∧
         dict_get w chunks = Some fid).
Proof.
  apply (C10_distinct_windows insertion_order (mkArgs 300 50 ["a"; "b"])
           [("chr1", 600); ("chr2", 100)] (λ _, ([("a", 1%nat)], 0%nat)));
    simpl; try lia.
  - compute_done.
  - intros _. unfold dict_wf. compute_done.
Defined.

(** C10 as stated fails on a table that lists a chromosome twice.  With
    chunk size 100 and no overlap, two lines for [chr1] of length 100 make
    [setup] plan the triple [(chr1, 0, 100)] twice; of the two chunks and
    the two logs that the window jobs return, [merge_results] keeps the
    later ones only, whatever the order in which dictionaries are
    iterated. *)
Lemma C10_counterexample :
  let args := mkArgs 100 0 [] in
  let w : window := ("chr1", 0, 100) in
  let rv : promise → list (string * FileID) * FileID :=
    λ p, match p with
         | JCgp 0 => ([("hg38", 10%nat)], 20%nat)
         | _ => ([("hg38", 11%nat)], 21%nat)
         end in
  0 < chunksize args ∧ 0 <= overlap args < chunksize args ∧
  planned args [("chr1", 100); ("chr1", 100)]
    = Some [(w, JCgp 0); (w, JCgp 1)] ∧
  ¬ NoDup [(w, JCgp 0); (w, JCgp 1)].*1 ∧
  regroup insertion_order (resolve rv [(w, JCgp 0); (w, JCgp 1)])
    = ([("hg38", [(w, 11%nat)])], [(w, 21%nat)]) ∧
  regroup reverse_order (resolve rv [(w, JCgp 0); (w, JCgp 1)])
    = ([("hg38", [(w, 11%nat)])], [(w, 21%nat)]) ∧
  dict_get w [(w, 21%nat)] ≠ Some (rv (JCgp 0)).2.
Proof.
  intros args w rv. repeat split; try (simpl; lia); try reflexivity.
  - intros Hnd. apply NoDup_cons in Hnd as [Hin _]. apply Hin. left.
  - vm_compute. discriminate.
Qed.

(** ** [cgp] *)

Lemma cgp_gffs_spec (cwd : string → option string) (gs : list string)
    (d d' : list (string * FileID)) (store store' : fileStore) :
  cgp_gffs cwd gs d store = Some (d', store') →
  dict_wf d →
  (∀ g id, dict_get g d = Some id →
     ∃ content, readGlobalFile store id = Some content ∧
                cwd (g +:+ ".cgp.gff") = Some content) →
  dict_wf d' ∧
  (∀ g, g ∈ d'.*1 ↔ g ∈ d.*1 ∨ g ∈ gs) ∧
  (∀ g id, dict_get g d' = Some id →
     ∃ content, readGlobalFile store' id = Some content ∧
                cwd (g +:+ ".cgp.gff") = Some content).
Proof.
  revert d store. induction gs as [| genome gs IH]; intros d store Hrun Hwf Hinv.
  - simpl in Hrun. injection Hrun as <- <-.
    split; [done |]. split; [| done].
    intros g. rewrite elem_of_nil. tauto.
  - simpl in Hrun.
    destruct (cwd (genome +:+ ".cgp.gff")) as [content |] eqn:Hfile;
      [| discriminate].
    apply IH in Hrun as (Hwf' & Hkeys & Hinv').
    + split; [done |]. split; [| done].
      intros g. rewrite Hkeys, dict_set_keys, elem_of_cons.
      destruct (decide (genome ∈ d.*1)) as [Hin | Hnin].
      * split; [tauto |]. intros [? | [-> | ?]]; tauto.
      * rewrite elem_of_app, list_elem_of_singleton. tauto.
    + by apply dict_set_wf.
    + intros g id. unfold readGlobalFile.
      destruct (decide (genome = g)) as [-> | Hne].
      * rewrite dict_get_set_eq. intros [= <-]. exists content.
        split; [| done]. by apply list_lookup_middle.
      * rewrite dict_get_set_ne by done. intros Hget.
        apply Hinv in Hget as (c & Hc & Hfile'). exists c.
        split; [| done]. by apply lookup_app_l_Some.
Qed.

Lemma cgp_gffs_total (cwd : string → option string) (gs : list string)
    (d : list (string * FileID)) (store : fileStore) :
  is_Some (cgp_gffs cwd gs d store) ↔
  ∀ g, g ∈ gs → is_Some (cwd (g +:+ ".cgp.gff")).
Proof.
  revert d store. induction gs as [| genome gs IH]; intros d store; simpl.
  - split; [| by eauto]. intros _ g Hin. by apply elem_of_nil in Hin.
  - destruct (cwd (genome +:+ ".cgp.gff")) as [content |] eqn:Hfile.
    + rewrite IH. split.
      * intros Hall g Hin. apply elem_of_cons in Hin as [-> | Hin]; [| auto].
        rewrite Hfile. by eexists.
      * intros Hall g Hin. apply Hall. by right.
    + split; [by intros [? ?] |]. intros Hall.
      specialize (Hall genome ltac:(left)). rewrite Hfile in Hall.
      by destruct Hall.
Qed.

(** C8.  [cgp] returns iff [augustus] left a file [genome.cgp.gff] for
    every target genome, and the dictionary it returns has the target
    genomes as its keys, each once; the artifact under a key has the
    content of that genome's file, the empty content when the file is
    empty. *)
Theorem C8_gff_chunks_keys (cwd : string → option string) (log : string)
    (args : Args) (store : fileStore) :
  (is_Some (cgp cwd log args store) ↔
   ∀ genome, genome ∈ genomes args → is_Some (cwd (genome +:+ ".cgp.gff"))) ∧
  ∀ gff_chunks stdout_file_id store',
    cgp cwd log args store = Some ((gff_chunks, stdout_file_id), store') →
    dict_wf gff_chunks ∧
    (∀ genome, genome ∈ gff_chunks.*1 ↔ genome ∈ genomes args) ∧
    (∀ genome, genome ∈ genomes args →
       ∃ id content,
         dict_get genome gff_chunks = Some id ∧
         readGlobalFile store' id = Some content ∧
         cwd (genome +:+ ".cgp.gff") = Some content) ∧
    (∀ genome, genome ∈ genomes args → cwd (genome +:+ ".cgp.gff") = Some "" →
       ∃ id, dict_get genome gff_chunks = Some id ∧
             readGlobalFile store' id = Some "").
Proof.
  unfold cgp. simpl. split.
  - rewrite <- (cgp_gffs_total cwd (genomes args) [] (store ++ [log])).
    destruct (cgp_gffs cwd (genomes args) [] (store ++ [log]))
      as [[d s] |]; split; intros [x Hx]; by eauto.
  - intros gff_chunks stdout_file_id store' Hrun.
    destruct (cgp_gffs cwd (genomes args) [] (store ++ [log]))
      as [[d s] |] eqn:Hgffs; [| discriminate].
    injection Hrun as -> _ ->.
    apply cgp_gffs_spec in Hgffs as (Hwf & Hkeys & Hinv);
      [| apply NoDup_nil_2 | intros g id; discriminate].
    assert (Hget : ∀ genome, genome ∈ genomes args →
              ∃ id content,
                dict_get genome gff_chunks = Some id ∧
                readGlobalFile store' id = Some content ∧
                cwd (genome +:+ ".cgp.gff") = Some content).
    { intros genome Hin.
      destruct (dict_get genome gff_chunks) as [id |] eqn:Hid.
      - destruct (Hinv genome id Hid) as (content & Hread & Hfile). eauto.
      - apply dict_get_None in Hid. exfalso. apply Hid, Hkeys. by right. }
    split; [done |]. split; [| split; [done |]].
    + intros genome. rewrite Hkeys, elem_of_nil. tauto.
    + intros genome Hin Hempty.
      destruct (Hget genome Hin) as (id & content & Hid & Hread & Hfile).
      exists id. split; [done |]. congruence.
Qed.

(** The working directory of the witness: an empty file for [a], one line
    for [b]. *)
Lemma C8_gff_chunks_keys_witness :
  let cwd := λ path : string,
    if decide (path = "a.cgp.gff") then Some ""
    else if decide (path = "b.cgp.gff") then Some "gene" else None in
  cgp cwd "log" (mkArgs 300 50 ["a"; "b"]) []
    = Some (([("a", 1%nat); ("b", 2%nat)], 0%nat), ["log"; ""; "gene"]) ∧
  dict_wf [("a", 1%nat); ("b", 2%nat)] ∧
  (∀ genome, genome ∈ [("a", 1%nat); ("b", 2%nat)].*1 ↔ genome ∈ ["a"; "b"]) ∧
  (∀ genome, genome ∈ ["a"; "b"] →
     ∃ id content,
       dict_get genome [("a", 1%nat); ("b", 2%nat)] = Some id ∧
       readGlobalFile ["log"; ""; "gene"] id = Some content ∧
       cwd (genome +:+ ".cgp.gff") = Some content) ∧
  (∀ genome, genome ∈ ["a"; "b"] → cwd (genome +:+ ".cgp.gff") = Some "" →
     ∃ id, dict_get genome [("a", 1%nat); ("b", 2%nat)] = Some id ∧
           readGlobalFile ["log"; ""; "gene"] id = Some "").
Proof.
  intros cwd. split; [reflexivity |].
  apply (proj2 (C8_gff_chunks_keys cwd "log" (mkArgs 300 50 ["a"; "b"]) [])
           [("a", 1%nat); ("b", 2%nat)] 0%nat ["log"; ""; "gene"]).
  reflexivity.
Defined.

(** ** Written files *)

Lemma append_assoc (s1 s2 s3 : string) :
  (s1 +:+ s2) +:+ s3 = s1 +:+ (s2 +:+ s3).
Proof.
  induction s1 as [| c s1 IH]; [done |].
  change (String c ((s1 +:+ s2) +:+ s3) = String c (s1 +:+ s2 +:+ s3)).
  by f_equal.
Qed.

Lemma append_nil_r (s : string) : s +:+ "" = s.
Proof.
  induction s as [| c s IH]; [done |].
  change (String c (s +:+ "") = String c s). by f_equal.
Qed.

(** The loop of [join_genes] writes the blocks of its items in the order
    it is given them, after what the files already hold. *)
Lemma join_genes_loop_blocks (store : fileStore) (items : list (window * FileID))
    (raw : string) (fofn : list FileID) :
  join_genes_loop store items raw fofn =
  (λ tail, (raw +:+ tail, fofn ++ items.*2)) <$> blocks store items.
Proof.
  revert raw fofn. induction items as [| [w chunk] items IH]; intros raw fofn.
  - simpl. by rewrite app_nil_r, append_nil_r.
  - cbn [join_genes_loop blocks].
    destruct (readGlobalFile store chunk) as [content |]; [| done].
    rewrite IH. destruct (blocks store items) as [tail |]; [| done].
    simpl. unfold block. rewrite !append_assoc, <- app_assoc. done.
Qed.

Lemma stdout_loop_blocks (store : fileStore) (items : list (window * FileID))
    (outf : string) :
  stdout_loop store items outf = (λ tail, outf +:+ tail) <$> blocks store items.
Proof.
  revert outf. induction items as [| [w id] items IH]; intros outf.
  - simpl. by rewrite append_nil_r.
  - cbn [stdout_loop blocks].
    destruct (readGlobalFile store id) as [content |]; [| done].
    rewrite IH. destruct (blocks store items) as [tail |]; [| done].
    simpl. unfold block. by rewrite !append_assoc.
Qed.

Lemma join_genes_blocks (py : interp) (store : fileStore)
    (gff_chunks : list (window * FileID)) :
  join_genes py store gff_chunks =
  (λ raw, (raw, (iteritems py gff_chunks).*2))
    <$> blocks store (iteritems py gff_chunks).
Proof. unfold join_genes. by rewrite join_genes_loop_blocks. Qed.

Lemma write_stdout_file_blocks (py : interp) (store : fileStore)
    (stdout_file_ids : list (window * FileID)) :
  write_stdout_file py store stdout_file_ids =
  blocks store (iteritems py stdout_file_ids).
Proof.
  unfold write_stdout_file. rewrite stdout_loop_blocks.
  by destruct (blocks store _).
Qed.

(** The blocks can be written as soon as every file is in the store. *)
Lemma blocks_is_Some (store : fileStore) (items : list (window * FileID)) :
  is_Some (blocks store items) ↔
  ∀ e, e ∈ items → is_Some (readGlobalFile store e.2).
Proof.
  induction items as [| [w id] items IH]; simpl.
  - split; [| by eauto]. intros _ e He. by apply elem_of_nil in He.
  - destruct (readGlobalFile store id) as [content |] eqn:Hread.
    + destruct (blocks store items) as [tail |].
      * split; [| by eauto]. intros _ e He.
        apply elem_of_cons in He as [-> | He]; [simpl; by rewrite Hread |].
        by apply IH.
      * split; [by intros [? ?] |]. intros Hall. apply IH.
        intros e He. apply Hall. by right.
    + split; [by intros [? ?] |]. intros Hall.
      specialize (Hall (w, id) ltac:(left)). simpl in Hall.
      rewrite Hread in Hall. by destruct Hall.
Qed.

(** ** The children of [merge_results] *)

Lemma merge_results_children (py : interp) (results : list chunk_result)
    (genome : string) (gff_chunks : list (window * FileID)) :
  (genome, gff_chunks) ∈ (merge_results py results).1 ↔
  genome ∈ (regroup py results).1.*1 ∧
  gff_chunks = default [] (dict_get genome (regroup py results).1).
Proof.
  unfold merge_results. destruct (regroup py results) as [bg ids]. simpl.
  rewrite list_elem_of_fmap. split.
  - intros ([g c] & [= -> ->] & Hin). simpl. split; [| done].
    rewrite iteritems_perm in Hin. apply list_elem_of_fmap. by exists (g, c).
  - intros [Hin ->]. apply list_elem_of_fmap in Hin as ([g c] & -> & Hin).
    exists (g, c). split; [done |]. by rewrite iteritems_perm.
Qed.

Lemma merge_results_stdout (py : interp) (results : list chunk_result) :
  (merge_results py results).2 = (regroup py results).2.
Proof. unfold merge_results. by destruct (regroup py results). Qed.

(** With distinct windows, a genome has a [join_genes] child iff some
    window has a chunk for it, and the child gets the chunks of the genome
    in the order of [results]. *)
Lemma merge_results_child (py : interp) (results : list chunk_result)
    (genome : string) (gff_chunks : list (window * FileID)) :
  NoDup results.*1 →
  Forall (λ r : chunk_result, dict_wf r.2.1) results →
  (genome, gff_chunks) ∈ (merge_results py results).1 ↔
  gff_chunks = genome_chunks genome results ∧ gff_chunks ≠ [].
Proof.
  intros Hnd Hwf. rewrite merge_results_children.
  rewrite regroup_by_genome_default by done.
  assert (Hkey : genome ∈ (regroup py results).1.*1 ↔
                 genome_chunks genome results ≠ []).
  { pose proof (dict_get_None (regroup py results).1 genome) as Hnone.
    rewrite regroup_by_genome in Hnone by done.
    destruct (genome_chunks genome results) as [| e l].
    - split; [| done]. intros Hin. by apply (proj1 Hnone) in Hin.
    - split; [done |]. intros _.
      destruct (decide (genome ∈ (regroup py results).1.*1)) as [| Hnin];
        [done |].
      by apply Hnone in Hnin. }
  rewrite Hkey. split; intros [H1 H2]; by subst.
Qed.

Lemma sorted_by_start_swap (w1 w2 : window) (id1 id2 : FileID) :
  w_start w2 < w_start w1 → ¬ sorted_by_start [(w1, id1); (w2, id2)].
Proof.
  intros Hlt Hsorted.
  specialize (Hsorted 0%nat 1%nat (w1, id1) (w2, id2) ltac:(lia) eq_refl eq_refl).
  simpl in Hsorted. lia.
Qed.

(** ** Order of the merged files *)

(** C2, as the code has it.  [merge_results] sorts nothing.  For results
    with pairwise distinct windows, given in any order [results'], the
    dictionary passed to [join_genes] for a genome holds the chunks of that
    genome in the order of [results']: the same entries, and the same
    answer under every key, as for any other order of the list.  The raw
    file is made of the blocks of these chunks, marker line first, in the
    order in which the interpreter yields the entries of the dictionary;
    each chunk is written once. *)
Theorem C2_merge_order (py : interp) (store : fileStore)
    (results results' : list chunk_result) (genome : string)
    (gff_chunks : list (window * FileID)) :
  NoDup results.*1 →
  Forall (λ r : chunk_result, dict_wf r.2.1) results →
  results' ≡ₚ results →
  (genome, gff_chunks) ∈ (merge_results py results').1 →
  gff_chunks = genome_chunks genome results' ∧
  gff_chunks ≡ₚ genome_chunks genome results ∧
  (∀ w, dict_get w gff_chunks = dict_get w (genome_chunks genome results)) ∧
  join_genes py store gff_chunks =
    (λ raw, (raw, (iteritems py gff_chunks).*2))
      <$> blocks store (iteritems py gff_chunks) ∧
  iteritems py gff_chunks ≡ₚ genome_chunks genome results ∧
  (is_Some (join_genes py store gff_chunks) ↔
   ∀ e, e ∈ gff_chunks → is_Some (readGlobalFile store e.2)).
Proof.
  intros Hnd Hwf Hperm Hchild.
  assert (Hnd' : NoDup results'.*1) by (by rewrite Hperm).
  assert (Hwf' : Forall (λ r : chunk_result, dict_wf r.2.1) results')
    by (by rewrite Hperm).
  apply merge_results_child in Hchild as [-> _]; [| done | done].
  assert (Hgc : genome_chunks genome results' ≡ₚ genome_chunks genome results)
    by (unfold genome_chunks; by rewrite Hperm).
  split; [done |]. split; [done |].
  split; [intros w; apply dict_get_perm; [by apply genome_chunks_wf | done] |].
  split; [apply join_genes_blocks |].
  split; [by rewrite iteritems_perm |].
  rewrite join_genes_blocks, fmap_is_Some, blocks_is_Some.
  split; intros Hall e He; apply Hall; revert He; by rewrite iteritems_perm.
Qed.

Lemma C2_merge_order_witness :
  let w0 : window := ("chr1", 0, 300) in
  let w250 : window := ("chr1", 250, 300) in
  let results := [(w0, ([("hg38", 0%nat)], 2%nat));
                  (w250, ([("hg38", 1%nat)], 3%nat))] in
  let store := ["gene0"; "gene250"; "log0"; "log250"] in
  let gff_chunks := [(w250, 1%nat); (w0, 0%nat)] in
  gff_chunks = genome_chunks "hg38" (reverse results) ∧
  gff_chunks ≡ₚ genome_chunks "hg38" results ∧
  (∀ w, dict_get w gff_chunks = dict_get w (genome_chunks "hg38" results)) ∧
  join_genes insertion_order store gff_chunks =
    (λ raw, (raw, (iteritems insertion_order gff_chunks).*2))
      <$> blocks store (iteritems insertion_order gff_chunks) ∧
  iteritems insertion_order gff_chunks ≡ₚ genome_chunks "hg38" results ∧
  (is_Some (join_genes insertion_order store gff_chunks) ↔
   ∀ e, e ∈ gff_chunks → is_Some (readGlobalFile store e.2)).
Proof.
  intros w0 w250 results store gff_chunks.
  apply (C2_merge_order insertion_order store results (reverse results)
           "hg38" gff_chunks).
  - compute_done.
  - repeat constructor; compute_done.
  - apply reverse_Permutation.
  - vm_compute. left.
Defined.

(** C2 as stated fails.  When the results of two windows come in the order
    250, 0, the dictionary passed to [join_genes] has the window at 250
    first and, with an interpreter that yields entries as inserted, so has
    the raw file; with the results in window order, an interpreter that
    yields entries in another order writes the raw file out of window
    order as well. *)
Lemma C2_counterexample :
  let w0 : window := ("chr1", 0, 300) in
  let w250 : window := ("chr1", 250, 300) in
  let r0 : chunk_result := (w0, ([("hg38", 0%nat)], 2%nat)) in
  let r250 : chunk_result := (w250, ([("hg38", 1%nat)], 3%nat)) in
  let store := ["gene0"; "gene250"; "log0"; "log250"] in
  (merge_results insertion_order [r250; r0]).1
    = [("hg38", [(w250, 1%nat); (w0, 0%nat)])] ∧
  ¬ sorted_by_start [(w250, 1%nat); (w0, 0%nat)] ∧
  join_genes insertion_order store [(w250, 1%nat); (w0, 0%nat)]
    = Some (block w250 "gene250" +:+ block w0 "gene0", [1%nat; 0%nat]) ∧
  (merge_results reverse_order [r0; r250]).1
    = [("hg38", [(w0, 0%nat); (w250, 1%nat)])] ∧
  join_genes reverse_order store [(w0, 0%nat); (w250, 1%nat)]
    = Some (block w250 "gene250" +:+ block w0 "gene0", [1%nat; 0%nat]) ∧
  Some (block w250 "gene250" +:+ block w0 "gene0", [1%nat; 0%nat])
    ≠ (λ raw, (raw, [0%nat; 1%nat]))
        <$> blocks store [(w0, 0%nat); (w250, 1%nat)].
Proof.
  intros w0 w250 r0 r250 store.
  split; [reflexivity |].
  split; [apply sorted_by_start_swap; vm_compute; reflexivity |].
  split; [reflexivity |]. split; [reflexivity |]. split; [reflexivity |].
  vm_compute. discriminate.
Qed.

(** C7, as the code has it.  With pairwise distinct windows the dictionary
    [stdout_file_ids] holds the log of every window once, and the run's
    stdout file is made of these logs, each after its marker line, in the
    order in which the interpreter yields the entries of the dictionary.
    That is the order of the windows when the interpreter yields entries as
    inserted.  The file can be written iff every log is in the store. *)
Theorem C7_stdout_file (py : interp) (store : fileStore)
    (results : list chunk_result) :
  NoDup results.*1 →
  (merge_results py results).2 = stdout_files results ∧
  write_stdout_file py store (merge_results py results).2 =
    blocks store (iteritems py (stdout_files results)) ∧
  iteritems py (stdout_files results) ≡ₚ stdout_files results ∧
  write_stdout_file insertion_order store
      (merge_results insertion_order results).2 =
    blocks store (stdout_files results) ∧
  (is_Some (write_stdout_file py store (merge_results py results).2) ↔
   ∀ r, r ∈ results → is_Some (readGlobalFile store r.2.2)).
Proof.
  intros Hnd.
  assert (Hout : ∀ py', (merge_results py' results).2 = stdout_files results).
  { intros py'. rewrite merge_results_stdout. by apply regroup_stdout. }
  split; [done |]. rewrite !Hout, !write_stdout_file_blocks.
  split; [done |]. split; [apply iteritems_perm |]. split; [done |].
  rewrite blocks_is_Some. split.
  - intros Hall r Hr. apply (Hall (r.1, r.2.2)).
    rewrite iteritems_perm. apply list_elem_of_fmap. by exists r.
  - intros Hall e He. rewrite iteritems_perm in He.
    apply list_elem_of_fmap in He as (r & -> & Hr). by apply Hall.
Qed.

Lemma C7_stdout_file_witness :
  let results : list chunk_result :=
    [(("chr1", 0, 300), ([], 0%nat)); (("chr1", 250, 250), ([], 1%nat))] in
  let store := ["log0"; "log250"] in
  (merge_results reverse_order results).2 = stdout_files results ∧
  write_stdout_file reverse_order store (merge_results reverse_order results).2
    = blocks store (iteritems reverse_order (stdout_files results)) ∧
  iteritems reverse_order (stdout_files results) ≡ₚ stdout_files results ∧
  write_stdout_file insertion_order store
      (merge_results insertion_order results).2 =
    blocks store (stdout_files results) ∧
  (is_Some (write_stdout_file reverse_order store
              (merge_results reverse_order results).2) ↔
   ∀ r, r ∈ results → is_Some (readGlobalFile store r.2.2)).
Proof.
  intros results store.
  apply (C7_stdout_file reverse_order store results). compute_done.
Defined.

(** C7 as stated fails.  For a chromosome of length 500 cut with chunk size
    300 and overlap 50 the windows are planned at 0 and 250; an interpreter
    that yields the entries of [stdout_file_ids] in another order than they
    were inserted writes the log of the window at 250 first. *)
Lemma C7_counterexample :
  let w0 : window := ("chr1", 0, 300) in
  let w250 : window := ("chr1", 250, 250) in
  let rv : promise → list (string * FileID) * FileID :=
    λ p, match p with JCgp 1 => ([], 1%nat) | _ => ([], 0%nat) end in
  let store := ["log0"; "log250"] in
  planned (mkArgs 300 50 []) [("chr1", 500)]
    = Some [(w0, JCgp 0); (w250, JCgp 1)] ∧
  write_stdout_file reverse_order store
      (merge_results reverse_order
         (resolve rv [(w0, JCgp 0); (w250, JCgp 1)])).2
    = Some (block w250 "log250" +:+ block w0 "log0") ∧
  blocks store (stdout_files (resolve rv [(w0, JCgp 0); (w250, JCgp 1)]))
    = Some (block w0 "log0" +:+ block w250 "log250") ∧
  block w250 "log250" +:+ block w0 "log0"
    ≠ block w0 "log0" +:+ block w250 "log250".
Proof.
  intros w0 w250 rv store.
  split; [reflexivity |]. split; [reflexivity |]. split; [reflexivity |].
  vm_compute. discriminate.
Qed.

(** ** Fan-in of the window chains *)

(** A job that has started had all the jobs it waits for finished. *)
Lemma toil_reachable_started (g : job) (s : sched) (id : job_id) :
  toil_reachable g s → id ∈ started s →
  ∃ pre, (id, pre) ∈ prereqs [] g ∧ ∀ p, p ∈ pre → p ∈ finished s.
Proof.
  unfold toil_reachable. intros Hreach. revert id.
  refine (rtc_ind_r (λ s, ∀ id, id ∈ started s → ∃ pre,
            (id, pre) ∈ prereqs [] g ∧ ∀ p, p ∈ pre → p ∈ finished s)
            _ _ _ s Hreach); clear s Hreach.
  - intros id Hin. by apply elem_of_nil in Hin.
  - intros s1 s2 _ Hstep IH id Hin.
    destruct Hstep as [id0 pre0 s1 Hpre0 Hnew Hdone | id0 s1 Hrun Hnew];
      simpl in *.
    + apply elem_of_cons in Hin as [-> | Hin]; [by exists pre0 | by apply IH].
    + destruct (IH id Hin) as (pre & Hpre & Hdone).
      exists pre. split; [done |]. intros p Hp. right. by apply Hdone.
Qed.

Lemma job_ids_chain (i : nat) (w : window) :
  job_ids (chain i w) = [JHal2maf i; JCgp i].
Proof. reflexivity. Qed.

Lemma prereqs_chain (pre : list job_id) (i : nat) (w : window) :
  prereqs pre (chain i w) = [(JHal2maf i, pre); (JCgp i, [JHal2maf i])].
Proof. reflexivity. Qed.

Lemma chains_job_ids (ws : list window) (i : nat) :
  (i < length ws)%nat →
  JHal2maf i ∈ flat_map job_ids (imap chain ws) ∧
  JCgp i ∈ flat_map job_ids (imap chain ws).
Proof.
  intros Hi. apply lookup_lt_is_Some in Hi as [w Hw].
  pose proof (elem_of_lookup_imap_2 chain ws w i Hw) as Hin.
  apply list_elem_of_In in Hin.
  split; apply list_elem_of_In, in_flat_map; exists (chain i w);
    (split; [done |]); rewrite job_ids_chain; simpl; auto.
Qed.

Lemma chains_prereqs_not_merge (pre pre' : list job_id) (ws : list window) :
  (JMerge, pre') ∉ flat_map (prereqs pre) (imap chain ws).
Proof.
  intros Hin. apply list_elem_of_In, in_flat_map in Hin as (j & Hj & Hin).
  apply list_elem_of_In, elem_of_lookup_imap_1 in Hj as (i & w & -> & _).
  rewrite prereqs_chain in Hin. simpl in Hin.
  destruct Hin as [? | [? | []]]; discriminate.
Qed.

(** What the follow-on [merge_results] of [setup] waits for. *)
Lemma setup_merge_prereqs (ws : list window) (results : list (window * promise))
    (pre : list job_id) :
  (JMerge, pre) ∈
    prereqs [] (Job JSetup SetupFn (imap chain ws)
                  [Job JMerge (MergeResultsFn results) [] []]) ↔
  pre = JSetup :: flat_map job_ids (imap chain ws).
Proof.
  cbn [prereqs flat_map]. rewrite !app_nil_r.
  rewrite elem_of_cons, elem_of_app, list_elem_of_singleton. split.
  - intros [? | [Hin | ?]]; [discriminate | | congruence].
    by apply chains_prereqs_not_merge in Hin.
  - intros ->. auto.
Qed.

(** C6.  On valid input [setup] returns a job whose children are the
    window chains and whose only follow-on is [merge_results], with the
    promise of every chain in its argument.  Under Toil's ordering that
    follow-on waits for [setup] and for both jobs of every chain: in every
    state that a run can reach, if [merge_results] has started then the
    [hal2maf] and [cgp] jobs of all the windows have finished. *)
Theorem C6_fan_in (args : Args) (chrom_sizes : list (string * Z)) :
  0 < chunksize args → 0 <= overlap args < chunksize args →
  let ws := table_windows args chrom_sizes in
  let results := imap (λ i w, (w, JCgp i)) ws in
  let g := Job JSetup SetupFn (imap chain ws)
             [Job JMerge (MergeResultsFn results) [] []] in
  setup args chrom_sizes = inr g ∧
  planned args chrom_sizes = Some results ∧
  (∀ pre, (JMerge, pre) ∈ prereqs [] g ↔
          pre = JSetup :: flat_map job_ids (imap chain ws)) ∧
  (∀ i : nat, (i < length ws)%nat →
     JHal2maf i ∈ flat_map job_ids (imap chain ws) ∧
     JCgp i ∈ flat_map job_ids (imap chain ws)) ∧
  (∀ s, toil_reachable g s → JMerge ∈ started s →
     JSetup ∈ finished s ∧
     ∀ i : nat, (i < length ws)%nat →
       JHal2maf i ∈ finished s ∧ JCgp i ∈ finished s).
Proof.
  intros HC HO ws results g.
  assert (Hstep : 0 < chunksize args - overlap args) by lia.
  split; [by apply setup_eq |]. split; [by apply planned_eq |].
  split; [intros pre; apply setup_merge_prereqs |].
  split; [apply chains_job_ids |].
  intros s Hreach Hstarted.
  destruct (toil_reachable_started g s JMerge Hreach Hstarted)
    as (pre & Hpre & Hdone).
  apply setup_merge_prereqs in Hpre as ->.
  split; [apply Hdone; left |].
  intros i Hi. destruct (chains_job_ids ws i Hi) as [Hh Hc].
  split; apply Hdone; by right.
Qed.

(** A run on one chromosome of length 100, cut into a single window: the
    jobs run one after the other, and [merge_results] starts last. *)
Lemma C6_fan_in_witness :
  let args := mkArgs 300 50 [] in
  let w : window := ("chr1", 0, 100) in
  let g := Job JSetup SetupFn [chain 0 w]
             [Job JMerge (MergeResultsFn [(w, JCgp 0)]) [] []] in
  let s := Sched [JMerge; JCgp 0; JHal2maf 0; JSetup]
                 [JCgp 0; JHal2maf 0; JSetup] in
  setup args [("chr1", 100)] = inr g ∧
  toil_reachable g s ∧
  JMerge ∈ started s ∧
  JSetup ∈ finished s ∧
  ∀ i : nat, (i < 1)%nat → JHal2maf i ∈ finished s ∧ JCgp i ∈ finished s.
Proof.
  intros args w g s.
  assert (Hreach : toil_reachable g s).
  { unfold toil_reachable, g, s.
    toil_start JSetup (@nil job_id). toil_finish JSetup.
    toil_start (JHal2maf 0) [JSetup]. toil_finish (JHal2maf 0).
    toil_start (JCgp 0) [JHal2maf 0]. toil_finish (JCgp 0).
    toil_start JMerge [JSetup; JHal2maf 0; JCgp 0].
    apply rtc_refl. }
  assert (Hstarted : JMerge ∈ started s) by (simpl; left).
  split; [reflexivity |]. split; [exact Hreach |]. split; [exact Hstarted |].
  apply (proj2 (proj2 (proj2 (proj2
           (C6_fan_in args [("chr1", 100)] ltac:(simpl; lia)
              ltac:(simpl; lia))))) s Hreach Hstarted).
Defined.

(** * Further properties of the pipeline *)

(** ** Order and number of the windows *)

(** X1.  With a positive step the windows of a chromosome come in the
    order of their starts: of two windows the later one starts strictly
    further and does not end earlier. *)
Theorem X1_windows_increasing (args : Args) (chrom : string) (L : Z)
    (ws : list window) :
  0 < chunksize args - overlap args →
  chrom_windows args chrom L = inr ws →
  ∀ (i j : nat) wi wj,
    (i < j)%nat → ws !! i = Some wi → ws !! j = Some wj →
    w_start wi < w_start wj ∧ w_end wi <= w_end wj.
Proof.
  intros Hstep Hws i j wi wj Hij Hi Hj.
  apply (chrom_windows_lookup args chrom L Hstep ws i wi Hws) in Hi as [_ ->].
  apply (chrom_windows_lookup args chrom L Hstep ws j wj Hws) in Hj as [_ ->].
  window_simpl. rewrite !clip_min. nia.
Qed.

Lemma X1_windows_increasing_witness :
  chrom_windows (mkArgs 10 6 []) "chr1" 9
    = inr [("chr1", 0, 9); ("chr1", 4, 5); ("chr1", 8, 1)] ∧
  ∀ (i j : nat) wi wj,
    (i < j)%nat →
    [("chr1", 0, 9); ("chr1", 4, 5); ("chr1", 8, 1)] !! i = Some wi →
    [("chr1", 0, 9); ("chr1", 4, 5); ("chr1", 8, 1)] !! j = Some wj →
    w_start wi < w_start wj ∧ w_end wi <= w_end wj.
Proof.
  split; [reflexivity |].
  apply (X1_windows_increasing (mkArgs 10 6 []) "chr1" 9);
    [simpl; lia | reflexivity].
Defined.

(** X2.  With a positive step the number [n] of windows of a chromosome is
    the least one with [L <= n * step]: none for a length that is zero or
    negative, and otherwise the quotient of [L + step - 1] by the step. *)
Theorem X2_window_number (args : Args) (chrom : string) (L : Z)
    (ws : list window) :
  0 < chunksize args - overlap args →
  chrom_windows args chrom L = inr ws →
  (L <= 0 → ws = []) ∧
  L <= Z.of_nat (length ws) * (chunksize args - overlap args) ∧
  (0 < L → (Z.of_nat (length ws) - 1) * (chunksize args - overlap args) < L) ∧
  Z.of_nat (length ws) =
    Z.max 0 ((L + (chunksize args - overlap args) - 1)
             / (chunksize args - overlap args)).
Proof.
  intros Hstep Hws.
  pose proof (λ k, chrom_windows_length args chrom L Hstep ws k Hws) as Hlen.
  set (step := chunksize args - overlap args) in *.
  assert (Hup : L <= Z.of_nat (length ws) * step).
  { destruct (Z.le_gt_cases L (Z.of_nat (length ws) * step)); [done |].
    assert (length ws < length ws)%nat by (by apply Hlen). lia. }
  assert (Hlow : 0 < L → (Z.of_nat (length ws) - 1) * step < L).
  { intros HL. destruct (decide (length ws = 0%nat)) as [H0 | H0];
      [rewrite H0; lia |].
    assert (Hlt : (length ws - 1 < length ws)%nat) by lia.
    apply Hlen in Hlt.
    by replace (Z.of_nat (length ws) - 1) with (Z.of_nat (length ws - 1))
      by lia. }
  split; [| split; [done | split; [done |]]].
  - intros HL. destruct ws as [| w ws]; [done |].
    assert (Hlt : (0 < length (w :: ws))%nat) by (simpl; lia).
    apply Hlen in Hlt. simpl in Hlt. lia.
  - destruct (Z.le_gt_cases L 0) as [HL | HL].
    + assert (length ws = 0%nat) as ->.
      { destruct ws as [| w ws]; [done |].
        assert (Hlt : (0 < length (w :: ws))%nat) by (simpl; lia).
        apply Hlen in Hlt. simpl in Hlt. lia. }
      assert ((L + step - 1) / step < 1)
        by (apply Z.div_lt_upper_bound; lia).
      lia.
    + specialize (Hlow HL).
      assert (Hq : (L + step - 1) / step = Z.of_nat (length ws)).
      { symmetry. apply (Z.div_unique_pos _ _ _
          (L + step - 1 - step * Z.of_nat (length ws))); lia. }
      rewrite Hq. lia.
Qed.

Lemma X2_window_number_witness :
  (1000 <= 0 → [("chr1", 0, 300); ("chr1", 250, 300); ("chr1", 500, 300);
                ("chr1", 750, 250)] = []) ∧
  1000 <= Z.of_nat 4 * (300 - 50) ∧
  (0 < 1000 → (Z.of_nat 4 - 1) * (300 - 50) < 1000) ∧
  Z.of_nat 4 = Z.max 0 ((1000 + (300 - 50) - 1) / (300 - 50)).
Proof.
  apply (X2_window_number (mkArgs 300 50 []) "chr1" 1000
           [("chr1", 0, 300); ("chr1", 250, 300); ("chr1", 500, 300);
            ("chr1", 750, 250)]);
    [simpl; lia | reflexivity].
Defined.

(** ** When [setup] raises, and what it returns *)

Lemma chrom_windows_nonzero_step (args : Args) (chrom : string) (L : Z) :
  chunksize args ≠ overlap args → ∃ ws, chrom_windows args chrom L = inr ws.
Proof.
  intros Hne. unfold chrom_windows, xrange.
  destruct (Z.eqb_spec (chunksize args - overlap args) 0); [lia |].
  by eexists.
Qed.

(** Whenever the loop ends without raising, it has added the windows of
    every line in turn. *)
Lemma setup_loop_inr (args : Args) (chrom_sizes : list (string * Z))
    (ws0 : list window) (st : setup_state) :
  setup_loop args chrom_sizes (state_of ws0) = inr st →
  st = state_of (ws0 ++ table_windows args chrom_sizes).
Proof.
  revert ws0. induction chrom_sizes as [| [chrom L] rest IH]; intros ws0.
  - simpl. intros [= <-]. by rewrite app_nil_r.
  - unfold table_windows. rewrite bind_cons. simpl.
    destruct (chrom_windows args chrom L) as [e | ws]; [discriminate |].
    rewrite add_chunks_state_of. intros Hrun. apply IH in Hrun as ->.
    by rewrite <- app_assoc.
Qed.

Lemma setup_loop_nonzero_step (args : Args) (chrom_sizes : list (string * Z))
    (ws0 : list window) :
  chunksize args ≠ overlap args →
  setup_loop args chrom_sizes (state_of ws0)
  = inr (state_of (ws0 ++ table_windows args chrom_sizes)).
Proof.
  intros Hne. revert ws0.
  induction chrom_sizes as [| [chrom L] rest IH]; intros ws0.
  - simpl. by rewrite app_nil_r.
  - unfold table_windows. rewrite bind_cons. simpl.
    destruct (chrom_windows_nonzero_step args chrom L Hne) as [ws ->].
    rewrite add_chunks_state_of, IH. by rewrite <- app_assoc.
Qed.

Lemma planned_cases (args : Args) (chrom_sizes : list (string * Z)) :
  planned args chrom_sizes =
  if decide (chunksize args = overlap args ∧ chrom_sizes ≠ [])
  then None
  else Some (imap (λ i w, (w, JCgp i)) (table_windows args chrom_sizes)).
Proof.
  unfold planned. change (SetupState [] []) with (state_of []).
  destruct (decide (chunksize args = overlap args ∧ chrom_sizes ≠ []))
    as [[Heq Hne] | Hnot].
  - destruct chrom_sizes as [| [chrom L] rest]; [done |].
    simpl. by rewrite chrom_windows_zero_step.
  - destruct (decide (chunksize args = overlap args)) as [Heq | Hne].
    + destruct chrom_sizes as [| line rest]; [done |].
      exfalso. apply Hnot. done.
    + by rewrite setup_loop_nonzero_step.
Qed.


(** X4.  Whenever [setup] returns, its job has one [hal2maf] child for
    each entry of [results], in the same order, and [merge_results] as only
    follow-on with [results] as argument.  The child at position [i] is
    given the window recorded at position [i], and the promise recorded
    there is that of the [cgp] follow-on of this very child. *)
Theorem X4_setup_pairs_jobs (args : Args) (chrom_sizes : list (string * Z))
    (g : job) :
  setup args chrom_sizes = inr g →
  ∃ children results,
    g = Job JSetup SetupFn children
          [Job JMerge (MergeResultsFn results) [] []] ∧
    planned args chrom_sizes = Some results ∧
    results.*1 = table_windows args chrom_sizes ∧
    length children = length results ∧
    ∀ (i : nat) w p,
      results !! i = Some (w, p) →
      p = JCgp i ∧
      children !! i =
        Some (Job (JHal2maf i) (Hal2mafFn w) []
                [Job (JCgp i) (CgpFn (JHal2maf i)) [] []]).
Proof.
  unfold setup, planned. change (SetupState [] []) with (state_of []).
  destruct (setup_loop args chrom_sizes (state_of [])) as [e | st] eqn:Hloop;
    [discriminate |].
  apply setup_loop_inr in Hloop as ->. intros [= <-]. simpl.
  eexists _, _. split; [reflexivity |]. split; [reflexivity |].
  split; [apply imap_pair_fst |]. split; [by rewrite !length_imap |].
  intros i w p Hi. apply list_lookup_imap_Some in Hi as (w' & Hw & [= -> ->]).
  split; [done |]. rewrite list_lookup_imap, Hw. reflexivity.
Qed.

Lemma X4_setup_pairs_jobs_witness :
  ∃ children results,
    Job JSetup SetupFn
      [chain 0 ("chr1", 0, 300); chain 1 ("chr1", 250, 250);
       chain 2 ("chr2", 0, 100)]
      [Job JMerge
         (MergeResultsFn
            [(("chr1", 0, 300), JCgp 0); (("chr1", 250, 250), JCgp 1);
             (("chr2", 0, 100), JCgp 2)]) [] []]
    = Job JSetup SetupFn children
        [Job JMerge (MergeResultsFn results) [] []] ∧
    planned (mkArgs 300 50 []) [("chr1", 500); ("chr2", 100)] = Some results ∧
    results.*1
      = table_windows (mkArgs 300 50 []) [("chr1", 500); ("chr2", 100)] ∧
    length children = length results ∧
    ∀ (i : nat) w p,
      results !! i = Some (w, p) →
      p = JCgp i ∧
      children !! i =
        Some (Job (JHal2maf i) (Hal2mafFn w) []
                [Job (JCgp i) (CgpFn (JHal2maf i)) [] []]).
Proof.
  apply (X4_setup_pairs_jobs (mkArgs 300 50 [])
           [("chr1", 500); ("chr2", 100)]).
  reflexivity.
Defined.

Lemma table_windows_app (args : Args) (t1 t2 : list (string * Z)) :
  table_windows args (t1 ++ t2) = table_windows args t1 ++ table_windows args t2.
Proof. unfold table_windows. apply bind_app. Qed.

(** X5.  The plan of a table made of two parts is the plan of the first
    part followed by that of the second, the positions of the window jobs
    running on; it fails as soon as the plan of one part does. *)
Theorem X5_plan_of_parts (args : Args) (t1 t2 : list (string * Z)) :
  planned args (t1 ++ t2) =
  match planned args t1, planned args t2 with
  | Some r1, Some r2 => Some (imap (λ i w, (w, JCgp i)) (r1.*1 ++ r2.*1))
  | _, _ => None
  end.
Proof.
  rewrite !planned_cases.
  destruct (decide (chunksize args = overlap args)) as [Heq | Hne].
  - destruct t1 as [| l1 t1].
    + rewrite app_nil_l.
      rewrite (decide_False (P := chunksize args = overlap args ∧ [] ≠ []))
        by tauto.
      destruct (decide (chunksize args = overlap args ∧ t2 ≠ [])); [done |].
      by rewrite !imap_pair_fst.
    + by rewrite !decide_True by done.
  - rewrite !decide_False by tauto.
    by rewrite !imap_pair_fst, table_windows_app.
Qed.

(** ** The jobs of the graph and their order *)

Lemma flat_map_chains {B : Type} (f : job → list B) (h : nat → list B)
    (ws : list window) (k : nat) :
  (∀ i w, f (chain i w) = h i) →
  flat_map f (imap (λ i, chain (k + i)) ws) = seq k (length ws) ≫= h.
Proof.
  intros Hf. revert k. induction ws as [| w ws IH]; intros k; [done |].
  cbn [imap flat_map length seq]. rewrite bind_cons, Nat.add_0_r, Hf.
  f_equal. rewrite <- IH. f_equal. apply imap_ext. intros i w' _. simpl.
  f_equal. lia.
Qed.

Lemma chains_job_ids_eq (ws : list window) :
  flat_map job_ids (imap chain ws)
  = seq 0 (length ws) ≫= λ i, [JHal2maf i; JCgp i].
Proof. by apply (flat_map_chains job_ids _ ws 0). Qed.

Lemma chains_prereqs_eq (pre : list job_id) (ws : list window) :
  flat_map (prereqs pre) (imap chain ws)
  = seq 0 (length ws) ≫= λ i, [(JHal2maf i, pre); (JCgp i, [JHal2maf i])].
Proof. by apply (flat_map_chains (prereqs pre) _ ws 0). Qed.

Lemma setup_graph_ids (ws : list window) (results : list (window * promise)) :
  job_ids (Job JSetup SetupFn (imap chain ws)
             [Job JMerge (MergeResultsFn results) [] []])
  = JSetup :: (seq 0 (length ws) ≫= λ i, [JHal2maf i; JCgp i]) ++ [JMerge].
Proof. cbn [job_ids flat_map]. by rewrite !app_nil_r, chains_job_ids_eq. Qed.

Lemma setup_graph_prereqs (ws : list window)
    (results : list (window * promise)) :
  prereqs [] (Job JSetup SetupFn (imap chain ws)
                [Job JMerge (MergeResultsFn results) [] []])
  = (JSetup, [])
    :: (seq 0 (length ws) ≫=
          λ i, [(JHal2maf i, [JSetup]); (JCgp i, [JHal2maf i])])
    ++ [(JMerge, JSetup :: flat_map job_ids (imap chain ws))].
Proof. cbn [prereqs flat_map]. by rewrite !app_nil_r, chains_prereqs_eq. Qed.

(** The graph that [setup] returns, in closed form. *)
Lemma setup_inr (args : Args) (chrom_sizes : list (string * Z)) (g : job) :
  setup args chrom_sizes = inr g →
  g = Job JSetup SetupFn (imap chain (table_windows args chrom_sizes))
        [Job JMerge
           (MergeResultsFn
              (imap (λ i w, (w, JCgp i)) (table_windows args chrom_sizes)))
           [] []].
Proof.
  unfold setup. change (SetupState [] []) with (state_of []).
  destruct (setup_loop args chrom_sizes (state_of [])) as [e | st] eqn:Hloop;
    [discriminate |].
  apply setup_loop_inr in Hloop as ->. by intros [= <-].
Qed.

(** X6.  The jobs of the graph that [setup] returns are pairwise distinct:
    [setup], [merge_results], and one [hal2maf] and one [cgp] job for each
    window, that is [2 * n + 2] jobs for [n] windows. *)
Theorem X6_setup_jobs_distinct (args : Args) (chrom_sizes : list (string * Z))
    (g : job) :
  setup args chrom_sizes = inr g →
  NoDup (job_ids g) ∧
  length (job_ids g)
    = (2 * length (table_windows args chrom_sizes) + 2)%nat ∧
  ∀ id, id ∈ job_ids g ↔
        id = JSetup ∨ id = JMerge ∨
        ∃ i : nat, (i < length (table_windows args chrom_sizes))%nat ∧
                   (id = JHal2maf i ∨ id = JCgp i).
Proof.
  intros Hg. apply setup_inr in Hg as ->. rewrite setup_graph_ids.
  set (n := length (table_windows args chrom_sizes)).
  assert (Hmem : ∀ id, id ∈ seq 0 n ≫= (λ i, [JHal2maf i; JCgp i]) ↔
                 ∃ i : nat, (i < n)%nat ∧ (id = JHal2maf i ∨ id = JCgp i)).
  { intros id. rewrite list_elem_of_bind. split.
    - intros (i & Hid & Hi). apply elem_of_seq in Hi. exists i.
      split; [lia |].
      rewrite elem_of_cons, list_elem_of_singleton in Hid. tauto.
    - intros (i & Hi & Hid). exists i. rewrite elem_of_seq.
      split; [| lia]. rewrite elem_of_cons, list_elem_of_singleton. tauto. }
  split; [| split].
  - apply NoDup_cons. split.
    + rewrite elem_of_app, Hmem, list_elem_of_singleton.
      intros [(i & _ & [? | ?]) | ?]; discriminate.
    + apply NoDup_app. split; [| split; [| apply NoDup_singleton]].
      * apply NoDup_bind; [| | apply NoDup_seq].
        -- intros i j id _ _ Hi Hj.
           rewrite elem_of_cons, list_elem_of_singleton in Hi, Hj.
           destruct Hi as [-> | ->], Hj as [[=] | [=]]; done.
        -- intros i _. apply NoDup_cons. split; [| apply NoDup_singleton].
           rewrite list_elem_of_singleton. discriminate.
      * intros id Hid Hm. apply list_elem_of_singleton in Hm as ->.
        apply Hmem in Hid as (i & _ & [? | ?]); discriminate.
  - simpl. rewrite length_app. simpl. f_equal.
    assert (Hlen : ∀ k m, length (seq k m ≫= λ i, [JHal2maf i; JCgp i])
                         = (2 * m)%nat).
    { intros k m. revert k. induction m as [| m IH]; intros k; [done |].
      cbn [seq]. rewrite bind_cons, length_app, IH. simpl. lia. }
    rewrite Hlen. lia.
  - intros id. rewrite elem_of_cons, elem_of_app, Hmem, list_elem_of_singleton.
    tauto.
Qed.

Lemma X6_setup_jobs_distinct_witness :
  let g := Job JSetup SetupFn
             [chain 0 ("chr1", 0, 300); chain 1 ("chr1", 250, 250)]
             [Job JMerge
                (MergeResultsFn
                   [(("chr1", 0, 300), JCgp 0); (("chr1", 250, 250), JCgp 1)])
                [] []] in
  let n := length (table_windows (mkArgs 300 50 []) [("chr1", 500)]) in
  NoDup (job_ids g) ∧
  length (job_ids g) = (2 * n + 2)%nat ∧
  ∀ id, id ∈ job_ids g ↔
        id = JSetup ∨ id = JMerge ∨
        ∃ i : nat, (i < n)%nat ∧ (id = JHal2maf i ∨ id = JCgp i).
Proof.
  intros g n.
  apply (X6_setup_jobs_distinct (mkArgs 300 50 []) [("chr1", 500)] g).
  reflexivity.
Defined.

(** What each job of the graph of [setup] waits for. *)
Lemma setup_graph_prereqs_elem (ws : list window)
    (results : list (window * promise)) (id : job_id) (pre : list job_id) :
  (id, pre) ∈ prereqs [] (Job JSetup SetupFn (imap chain ws)
                            [Job JMerge (MergeResultsFn results) [] []]) ↔
  (id = JSetup ∧ pre = []) ∨
  (∃ i : nat, (i < length ws)%nat ∧ id = JHal2maf i ∧ pre = [JSetup]) ∨
  (∃ i : nat, (i < length ws)%nat ∧ id = JCgp i ∧ pre = [JHal2maf i]) ∨
  (id = JMerge ∧ pre = JSetup :: flat_map job_ids (imap chain ws)).
Proof.
  rewrite setup_graph_prereqs.
  rewrite elem_of_cons, elem_of_app, list_elem_of_singleton, list_elem_of_bind.
  split.
  - intros [[= -> ->] | [(i & Hin & Hi) | [= -> ->]]]; [tauto | | tauto].
    apply elem_of_seq in Hi.
    rewrite elem_of_cons, list_elem_of_singleton in Hin.
    destruct Hin as [[= -> ->] | [= -> ->]].
    + right. left. exists i. split; [lia | done].
    + right. right. left. exists i. split; [lia | done].
  - intros [[-> ->] | [(i & Hi & -> & ->) | [(i & Hi & -> & ->) | [-> ->]]]];
      [by left | | | by right; right].
    + right. left. exists i. rewrite elem_of_seq. split; [left | lia].
    + right. left. exists i. rewrite elem_of_seq.
      split; [right; left | lia].
Qed.

(** What has finished has started before. *)
Lemma toil_reachable_finished (g : job) (s : sched) (id : job_id) :
  toil_reachable g s → id ∈ finished s → id ∈ started s.
Proof.
  unfold toil_reachable. intros Hreach. revert id.
  refine (rtc_ind_r (λ s, ∀ id, id ∈ finished s → id ∈ started s)
            _ _ _ s Hreach); clear s Hreach.
  - intros id Hin. by apply elem_of_nil in Hin.
  - intros s1 s2 _ Hstep IH id Hin.
    destruct Hstep as [id0 pre0 s1 Hpre0 Hnew Hdone | id0 s1 Hrun Hnew];
      simpl in *.
    + right. by apply IH.
    + apply elem_of_cons in Hin as [-> | Hin]; [done | by apply IH].
Qed.

(** X7.  In the graph that [setup] returns the chains of the windows are
    independent: a [hal2maf] job waits for [setup] alone and a [cgp] job
    for the [hal2maf] job of its own window alone.  So in every state that
    a run can reach, a [hal2maf] job that has started finds [setup]
    finished, and a [cgp] job that has started finds the [hal2maf] job of
    its window, and [setup], finished. *)
Theorem X7_chain_order (args : Args) (chrom_sizes : list (string * Z))
    (g : job) (s : sched) :
  setup args chrom_sizes = inr g →
  toil_reachable g s →
  (∀ (i : nat) pre, (JHal2maf i, pre) ∈ prereqs [] g → pre = [JSetup]) ∧
  (∀ (i : nat) pre, (JCgp i, pre) ∈ prereqs [] g → pre = [JHal2maf i]) ∧
  (∀ i : nat, JHal2maf i ∈ started s → JSetup ∈ finished s) ∧
  (∀ i : nat, JCgp i ∈ started s →
     JHal2maf i ∈ finished s ∧ JSetup ∈ finished s).
Proof.
  intros Hg Hreach. apply setup_inr in Hg. subst g.
  set (ws := table_windows args chrom_sizes) in *.
  set (results := imap (λ i w, (w, JCgp i)) ws) in *.
  assert (Hh : ∀ (i : nat) pre,
            (JHal2maf i, pre) ∈
              prereqs [] (Job JSetup SetupFn (imap chain ws)
                            [Job JMerge (MergeResultsFn results) [] []]) →
            pre = [JSetup]).
  { intros i pre Hin. apply setup_graph_prereqs_elem in Hin
      as [[[=] _] | [(j & _ & [= <-] & ->) | [(j & _ & [=] & _) | [[=] _]]]].
    done. }
  assert (Hc : ∀ (i : nat) pre,
            (JCgp i, pre) ∈
              prereqs [] (Job JSetup SetupFn (imap chain ws)
                            [Job JMerge (MergeResultsFn results) [] []]) →
            pre = [JHal2maf i]).
  { intros i pre Hin. apply setup_graph_prereqs_elem in Hin
      as [[[=] _] | [(j & _ & [=] & _) | [(j & _ & [= <-] & ->) | [[=] _]]]].
    done. }
  assert (Hhs : ∀ i : nat, JHal2maf i ∈ started s → JSetup ∈ finished s).
  { intros i Hin.
    destruct (toil_reachable_started _ s _ Hreach Hin) as (pre & Hpre & Hdone).
    apply Hh in Hpre as ->. apply Hdone. left. }
  split; [done |]. split; [done |]. split; [done |].
  intros i Hin.
  destruct (toil_reachable_started _ s _ Hreach Hin) as (pre & Hpre & Hdone).
  apply Hc in Hpre as ->.
  assert (Hfin : JHal2maf i ∈ finished s) by (apply Hdone; left).
  split; [done |]. apply (Hhs i).
  by apply (toil_reachable_finished _ s _ Hreach).
Qed.

Lemma X7_chain_order_witness :
  let g := Job JSetup SetupFn [chain 0 ("chr1", 0, 100)]
             [Job JMerge (MergeResultsFn [(("chr1", 0, 100), JCgp 0)]) [] []] in
  let s := Sched [JCgp 0; JHal2maf 0; JSetup] [JHal2maf 0; JSetup] in
  toil_reachable g s ∧
  (∀ (i : nat) pre, (JHal2maf i, pre) ∈ prereqs [] g → pre = [JSetup]) ∧
  (∀ (i : nat) pre, (JCgp i, pre) ∈ prereqs [] g → pre = [JHal2maf i]) ∧
  (∀ i : nat, JHal2maf i ∈ started s → JSetup ∈ finished s) ∧
  (∀ i : nat, JCgp i ∈ started s →
     JHal2maf i ∈ finished s ∧ JSetup ∈ finished s).
Proof.
  intros g s.
  assert (Hreach : toil_reachable g s).
  { unfold toil_reachable, g, s.
    toil_start JSetup (@nil job_id). toil_finish JSetup.
    toil_start (JHal2maf 0) [JSetup]. toil_finish (JHal2maf 0).
    toil_start (JCgp 0) [JHal2maf 0].
    apply rtc_refl. }
  split; [exact Hreach |].
  apply (X7_chain_order (mkArgs 300 50 []) [("chr1", 100)] g s);
    [reflexivity | exact Hreach].
Defined.

(** ** A run of the whole graph *)

Lemma ran_elem (k : nat) (id : job_id) :
  id ∈ ran k ↔
  id = JSetup ∨ ∃ i : nat, (i < k)%nat ∧ (id = JHal2maf i ∨ id = JCgp i).
Proof.
  induction k as [| k IH]; simpl.
  - rewrite list_elem_of_singleton. split; [tauto |].
    intros [? | (i & Hi & _)]; [done | lia].
  - rewrite !elem_of_cons, IH. split.
    + intros [-> | [-> | [-> | (i & Hi & Hid)]]].
      * right. exists k. split; [lia | tauto].
      * right. exists k. split; [lia | tauto].
      * by left.
      * right. exists i. split; [lia | done].
    + intros [-> | (i & Hi & Hid)]; [tauto |].
      destruct (decide (i = k)) as [-> | Hne]; [tauto |].
      right. right. right. exists i. split; [lia | done].
Qed.

(** A job that can start runs to its end in two steps. *)
Lemma toil_run_job (g : job) (id : job_id) (pre l : list job_id) :
  (id, pre) ∈ prereqs [] g → id ∉ l → (∀ p, p ∈ pre → p ∈ l) →
  rtc (toil_step g) (Sched l l) (Sched (id :: l) (id :: l)).
Proof.
  intros Hpre Hnew Hdone.
  eapply rtc_l; [apply (step_start g id pre (Sched l l)); done |].
  simpl. apply rtc_once.
  apply (step_finish g id (Sched (id :: l) l)); simpl; [left | done].
Qed.

Lemma setup_graph_run_chains (ws : list window)
    (results : list (window * promise)) (k : nat) :
  (k <= length ws)%nat →
  rtc (toil_step (Job JSetup SetupFn (imap chain ws)
                    [Job JMerge (MergeResultsFn results) [] []]))
    (Sched [] []) (Sched (ran k) (ran k)).
Proof.
  induction k as [| k IH]; intros Hk.
  - apply (toil_run_job _ JSetup [] []).
    + apply setup_graph_prereqs_elem. by left.
    + apply not_elem_of_nil.
    + intros p Hp. by apply elem_of_nil in Hp.
  - eapply rtc_trans; [apply IH; lia |].
    eapply rtc_trans.
    + apply (toil_run_job _ (JHal2maf k) [JSetup] (ran k)).
      * apply setup_graph_prereqs_elem. right. left. exists k.
        split; [lia | done].
      * rewrite ran_elem. intros [? | (i & Hi & [[= ->] | ?])];
          [done | lia | done].
      * intros p Hp. apply list_elem_of_singleton in Hp as ->.
        apply ran_elem. by left.
    + apply (toil_run_job _ (JCgp k) [JHal2maf k] (JHal2maf k :: ran k)).
      * apply setup_graph_prereqs_elem. right. right. left. exists k.
        split; [lia | done].
      * rewrite elem_of_cons, ran_elem.
        intros [? | [? | (i & Hi & [? | [= ->]])]]; [done | done | done | lia].
      * intros p Hp. apply list_elem_of_singleton in Hp as ->. left.
Qed.

(** X8.  The graph that [setup] returns can be run to its end: there is a
    run, the jobs one after the other and [merge_results] last, after
    which the jobs that have finished are exactly the jobs of the graph. *)
Theorem X8_run_completes (args : Args) (chrom_sizes : list (string * Z))
    (g : job) :
  setup args chrom_sizes = inr g →
  ∃ s, toil_reachable g s ∧
       started s = finished s ∧
       head (finished s) = Some JMerge ∧
       ∀ id, id ∈ job_ids g ↔ id ∈ finished s.
Proof.
  intros Hg. apply setup_inr in Hg. subst g.
  set (ws := table_windows args chrom_sizes).
  set (results := imap (λ i w, (w, JCgp i)) ws).
  exists (Sched (JMerge :: ran (length ws)) (JMerge :: ran (length ws))).
  split; [| split; [done | split; [done |]]].
  - unfold toil_reachable.
    eapply rtc_trans; [by apply (setup_graph_run_chains ws results) |].
    apply (toil_run_job _ JMerge (JSetup :: flat_map job_ids (imap chain ws))).
    + apply setup_graph_prereqs_elem. by right; right; right.
    + rewrite ran_elem. intros [? | (i & _ & [? | ?])]; done.
    + intros p Hp. apply ran_elem.
      apply elem_of_cons in Hp as [-> | Hp]; [by left |].
      right. rewrite chains_job_ids_eq in Hp.
      apply list_elem_of_bind in Hp as (i & Hid & Hi).
      apply elem_of_seq in Hi. exists i. split; [lia |].
      rewrite elem_of_cons, list_elem_of_singleton in Hid. tauto.
  - intros id. simpl finished. rewrite setup_graph_ids.
    rewrite !elem_of_cons, elem_of_app, list_elem_of_singleton, ran_elem.
    rewrite list_elem_of_bind. split.
    + intros [-> | [(i & Hid & Hi) | ->]]; [tauto | | tauto].
      apply elem_of_seq in Hi. right. right. exists i. split; [lia |].
      rewrite elem_of_cons, list_elem_of_singleton in Hid. tauto.
    + intros [-> | [-> | (i & Hi & Hid)]]; [tauto | tauto |].
      right. left. exists i. rewrite elem_of_seq. split; [| lia].
      rewrite elem_of_cons, list_elem_of_singleton. tauto.
Qed.

Lemma X8_run_completes_witness :
  let g := Job JSetup SetupFn
             [chain 0 ("chr1", 0, 300); chain 1 ("chr1", 250, 250)]
             [Job JMerge
                (MergeResultsFn
                   [(("chr1", 0, 300), JCgp 0); (("chr1", 250, 250), JCgp 1)])
                [] []] in
  ∃ s, toil_reachable g s ∧
       started s = finished s ∧
       head (finished s) = Some JMerge ∧
       ∀ id, id ∈ job_ids g ↔ id ∈ finished s.
Proof.
  intros g.
  apply (X8_run_completes (mkArgs 300 50 []) [("chr1", 500)] g).
  reflexivity.
Defined.

(** ** The files written by [cgp] *)

Section DictValues.

Context {K V : Type} `{EqDecision K}.

Implicit Types (d : list (K * V)) (k : K) (v : V).

Lemma dict_set_values d k v x :
  x ∈ (dict_set k v d).*2 → x = v ∨ x ∈ d.*2.
Proof.
  induction d as [| [k' v'] d IH]; cbn [dict_set].
  - rewrite fmap_cons, elem_of_cons. intros [-> | Hin]; [by left |].
    by apply elem_of_nil in Hin.
  - destruct (decide (k' = k)) as [-> | Hne]; rewrite !fmap_cons, !elem_of_cons.
    + simpl. tauto.
    + simpl. intros [-> | Hin]; [tauto |]. apply IH in Hin. tauto.
Qed.

Lemma dict_set_values_NoDup d k v :
  NoDup d.*2 → v ∉ d.*2 → NoDup (dict_set k v d).*2.
Proof.
  induction d as [| [k' v'] d IH]; cbn [dict_set].
  - intros _ _. apply NoDup_singleton.
  - rewrite fmap_cons, NoDup_cons, not_elem_of_cons. simpl.
    intros [Hv' Hd] [Hne Hv].
    destruct (decide (k' = k)) as [-> | Hk]; rewrite fmap_cons, NoDup_cons;
      simpl; [done |].
    split; [| by apply IH].
    intros Hin. apply dict_set_values in Hin as [-> | Hin]; done.
Qed.

Lemma dict_set_Forall (P : K * V → Prop) d k v :
  (∀ k', P (k', v)) → Forall P d → Forall P (dict_set k v d).
Proof.
  intros Hv. induction d as [| [k' v'] d IH]; cbn [dict_set].
  - intros _. by apply Forall_singleton.
  - rewrite Forall_cons. intros [Hk' Hd].
    destruct (decide (k' = k)); apply Forall_cons; auto.
Qed.

End DictValues.

Lemma cgp_gffs_store (cwd : string → option string) (gs : list string)
    (d d' : list (string * FileID)) (store store' : fileStore) :
  cgp_gffs cwd gs d store = Some (d', store') →
  ∃ contents,
    store' = store ++ contents ∧
    Forall2 (λ g c, cwd (g +:+ ".cgp.gff") = Some c) gs contents.
Proof.
  revert d store. induction gs as [| genome gs IH]; intros d store Hrun.
  - simpl in Hrun. injection Hrun as <- <-. exists [].
    split; [by rewrite app_nil_r | constructor].
  - simpl in Hrun.
    destruct (cwd (genome +:+ ".cgp.gff")) as [content |] eqn:Hfile;
      [| discriminate].
    apply IH in Hrun as (contents & -> & Hall).
    exists (content :: contents). split; [by rewrite <- app_assoc |].
    by constructor.
Qed.

Lemma cgp_gffs_ids (cwd : string → option string) (gs : list string)
    (d d' : list (string * FileID)) (store store' : fileStore) :
  cgp_gffs cwd gs d store = Some (d', store') →
  NoDup d.*2 →
  Forall (λ e : string * FileID, (e.2 < length store)%nat) d →
  NoDup d'.*2 ∧
  Forall (λ e : string * FileID,
            (e.2 < length store')%nat ∧
            ((e.2 < length store)%nat → e ∈ d)) d'.
Proof.
  revert d store. induction gs as [| genome gs IH]; intros d store Hrun Hnd Hlt.
  - simpl in Hrun. injection Hrun as <- <-. split; [done |].
    apply Forall_forall. intros e He. split; [| done].
    by apply (proj1 (Forall_forall _ _) Hlt).
  - simpl in Hrun.
    destruct (cwd (genome +:+ ".cgp.gff")) as [content |] eqn:Hfile;
      [| discriminate].
    assert (Hfresh : length store ∉ d.*2).
    { intros Hin. apply list_elem_of_fmap in Hin as (e & Heq & He).
      apply (proj1 (Forall_forall _ _) Hlt) in He. lia. }
    apply IH in Hrun as [Hnd' Hall].
    + split; [done |]. apply Forall_forall. intros e He.
      apply (proj1 (Forall_forall _ _) Hall) in He as [Hlt' Hold].
      split; [done |]. intros Hlow.
      assert (He : e ∈ dict_set genome (length store) d)
        by (apply Hold; rewrite length_app; simpl; lia).
      assert (Hval : e.2 = length store ∨ e.2 ∈ d.*2).
      { apply dict_set_values with (k := genome).
        apply list_elem_of_fmap. by exists e. }
      clear Hval.
      revert He. clear -Hlow. induction d as [| [k v] d IHd]; cbn [dict_set].
      * intros He. apply list_elem_of_singleton in He as ->. simpl in Hlow.
        lia.
      * destruct (decide (k = genome)) as [-> | Hne];
          rewrite !elem_of_cons.
        -- intros [-> | He]; [simpl in Hlow; lia | tauto].
        -- intros [-> | He]; [tauto | right; by apply IHd].
    + by apply dict_set_values_NoDup.
    + rewrite length_app. simpl.
      apply dict_set_Forall; [intros k'; simpl; lia |].
      eapply Forall_impl; [exact Hlt |]. intros e He. simpl in *. lia.
Qed.

Lemma cgp_gffs_fresh (cwd : string → option string) (gs : list string)
    (d d' : list (string * FileID)) (store store' : fileStore) :
  cgp_gffs cwd gs d store = Some (d', store') →
  NoDup gs → (∀ g, g ∈ gs → g ∉ d.*1) →
  d' = d ++ imap (λ i g, (g, (length store + i)%nat)) gs.
Proof.
  revert d store. induction gs as [| genome gs IH]; intros d store Hrun Hnd Hnew.
  - simpl in Hrun. injection Hrun as <- <-. by rewrite app_nil_r.
  - simpl in Hrun. apply NoDup_cons in Hnd as [Hg Hnd].
    destruct (cwd (genome +:+ ".cgp.gff")) as [content |] eqn:Hfile;
      [| discriminate].
    rewrite dict_set_fresh in Hrun by (apply Hnew; left).
    apply IH in Hrun as ->; [| done |].
    + rewrite <- app_assoc. f_equal. cbn [imap app]. rewrite Nat.add_0_r.
      f_equal. apply imap_ext. intros i g _. simpl. f_equal.
      rewrite length_app. simpl. lia.
    + intros g Hin. rewrite fmap_app, elem_of_app. simpl.
      rewrite list_elem_of_singleton.
      intros [Hd | ->]; [| done].
      by apply (Hnew g); [right |].
Qed.

(** X9.  [cgp] only adds to the file store.  When it returns, the new
    store is the old one followed by the log of [augustus] and then by the
    content of [genome.cgp.gff] for each entry of [args.genomes], in that
    order; [stdout_file_id] is the identifier of the log, and every file
    that was in the store reads as before. *)
Theorem X9_cgp_appends (cwd : string → option string) (log : string)
    (args : Args) (store store' : fileStore)
    (gff_chunks : list (string * FileID)) (stdout_file_id : FileID) :
  cgp cwd log args store = Some ((gff_chunks, stdout_file_id), store') →
  stdout_file_id = length store ∧
  readGlobalFile store' stdout_file_id = Some log ∧
  (∃ contents,
     store' = store ++ log :: contents ∧
     Forall2 (λ g c, cwd (g +:+ ".cgp.gff") = Some c) (genomes args) contents) ∧
  length store' = (length store + 1 + length (genomes args))%nat ∧
  (∀ id content,
     readGlobalFile store id = Some content →
     readGlobalFile store' id = Some content).
Proof.
  unfold cgp. simpl. intros Hrun.
  destruct (cgp_gffs cwd (genomes args) [] (store ++ [log]))
    as [[d s] |] eqn:Hgffs; [| discriminate].
  injection Hrun as -> <- ->.
  apply cgp_gffs_store in Hgffs as (contents & -> & Hall).
  rewrite <- app_assoc. simpl. unfold readGlobalFile.
  split; [done |]. split; [by apply list_lookup_middle |].
  split; [by exists contents |]. split.
  - rewrite length_app. simpl. apply Forall2_length in Hall. lia.
  - intros id content Hread. by apply lookup_app_l_Some.
Qed.

Lemma X9_cgp_appends_witness :
  let cwd := λ path : string,
    if decide (path = "a.cgp.gff") then Some ""
    else if decide (path = "b.cgp.gff") then Some "gene" else None in
  cgp cwd "log" (mkArgs 300 50 ["a"; "b"]) ["old"]
    = Some (([("a", 2%nat); ("b", 3%nat)], 1%nat),
            ["old"; "log"; ""; "gene"]) ∧
  1%nat = length ["old"] ∧
  readGlobalFile ["old"; "log"; ""; "gene"] 1%nat = Some "log" ∧
  (∃ contents,
     ["old"; "log"; ""; "gene"] = ["old"] ++ "log" :: contents ∧
     Forall2 (λ g c, cwd (g +:+ ".cgp.gff") = Some c) ["a"; "b"] contents) ∧
  length ["old"; "log"; ""; "gene"] = (length ["old"] + 1 + 2)%nat ∧
  (∀ id content,
     readGlobalFile ["old"] id = Some content →
     readGlobalFile ["old"; "log"; ""; "gene"] id = Some content).
Proof.
  intros cwd. split; [reflexivity |].
  apply (X9_cgp_appends cwd "log" (mkArgs 300 50 ["a"; "b"]) ["old"]
           ["old"; "log"; ""; "gene"] [("a", 2%nat); ("b", 3%nat)] 1%nat).
  reflexivity.
Defined.

(** X10.  The artifacts that [cgp] returns are all new and all different:
    the identifiers in [gff_chunks] are pairwise distinct, none is that of
    the log and none names a file that was in the store before.  When
    [args.genomes] lists no genome twice, the genome at position [i] gets
    the identifier just after the log plus [i], in the order of
    [args.genomes]. *)
Theorem X10_cgp_fresh_ids (cwd : string → option string) (log : string)
    (args : Args) (store store' : fileStore)
    (gff_chunks : list (string * FileID)) (stdout_file_id : FileID) :
  cgp cwd log args store = Some ((gff_chunks, stdout_file_id), store') →
  NoDup gff_chunks.*2 ∧
  (∀ genome id, dict_get genome gff_chunks = Some id →
     (stdout_file_id < id < length store')%nat ∧
     readGlobalFile store id = None) ∧
  (NoDup (genomes args) →
   gff_chunks =
     imap (λ i g, (g, (length store + 1 + i)%nat)) (genomes args)).
Proof.
  unfold cgp. simpl. intros Hrun.
  destruct (cgp_gffs cwd (genomes args) [] (store ++ [log]))
    as [[d s] |] eqn:Hgffs; [| discriminate].
  injection Hrun as -> <- ->.
  destruct (cgp_gffs_ids _ _ _ _ _ _ Hgffs) as [Hnd Hall];
    [apply NoDup_nil_2 | apply Forall_nil_2 |].
  split; [done |]. split.
  - intros genome id Hget. apply dict_get_Some in Hget.
    apply (proj1 (Forall_forall _ _) Hall) in Hget as [Hlt Hold].
    simpl in *. rewrite length_app in Hold. simpl in Hold.
    assert (Hge : ¬ (id < length store + 1)%nat).
    { intros Hlow. apply Hold in Hlow. by apply elem_of_nil in Hlow. }
    split; [lia |]. unfold readGlobalFile. apply lookup_ge_None. lia.
  - intros Hgs.
    apply cgp_gffs_fresh in Hgffs as ->; [| done |].
    + simpl. apply imap_ext. intros i g _. simpl. f_equal.
      rewrite length_app. simpl. lia.
    + intros g _. apply not_elem_of_nil.
Qed.

Lemma X10_cgp_fresh_ids_witness :
  let cwd := λ path : string,
    if decide (path = "a.cgp.gff") then Some ""
    else if decide (path = "b.cgp.gff") then Some "gene" else None in
  let gff_chunks := [("a", 4%nat); ("b", 3%nat)] in
  cgp cwd "log" (mkArgs 300 50 ["a"; "b"; "a"]) ["old"]
    = Some ((gff_chunks, 1%nat), ["old"; "log"; ""; "gene"; ""]) ∧
  NoDup gff_chunks.*2 ∧
  (∀ genome id, dict_get genome gff_chunks = Some id →
     (1 < id < length ["old"; "log"; ""; "gene"; ""])%nat ∧
     readGlobalFile ["old"] id = None) ∧
  (NoDup ["a"; "b"; "a"] →
   gff_chunks =
     imap (λ i g, (g, (length ["old"] + 1 + i)%nat)) ["a"; "b"; "a"]).
Proof.
  intros cwd gff_chunks. split; [reflexivity |].
  apply (X10_cgp_fresh_ids cwd "log" (mkArgs 300 50 ["a"; "b"; "a"]) ["old"]
           ["old"; "log"; ""; "gene"; ""] gff_chunks 1%nat).
  reflexivity.
Defined.

(** ** [merge_results] on any list of results *)

Lemma dict_get_set {K V : Type} `{EqDecision K} (d : list (K * V))
    (k k' : K) (v : V) :
  dict_get k' (dict_set k v d) = if decide (k = k') then Some v else dict_get k' d.
Proof.
  destruct (decide (k = k')) as [-> | Hne].
  - apply dict_get_set_eq.
  - by apply dict_get_set_ne.
Qed.

Lemma dict_set_keys_elem {K V : Type} `{EqDecision K} (d : list (K * V))
    (k k' : K) (v : V) :
  k' ∈ (dict_set k v d).*1 ↔ k' = k ∨ k' ∈ d.*1.
Proof.
  rewrite dict_set_keys. destruct (decide (k ∈ d.*1)) as [Hin | Hnin].
  - split; [tauto |]. intros [-> | ?]; done.
  - rewrite elem_of_app, list_elem_of_singleton. tauto.
Qed.

Lemma add_gffs_keys (w : window) (items : list (string * FileID))
    (by_genome : list (string * list (window * FileID))) (g : string) :
  g ∈ (fold_left (add_gff w) items by_genome).*1 ↔
  g ∈ by_genome.*1 ∨ g ∈ items.*1.
Proof.
  revert by_genome. induction items as [| [g0 fid0] items IH]; intros by_genome.
  - simpl. rewrite elem_of_nil. tauto.
  - cbn [fold_left]. rewrite IH. unfold add_gff.
    rewrite dict_set_keys_elem, fmap_cons, elem_of_cons. simpl. tauto.
Qed.

Lemma add_gffs_wf (w : window) (items : list (string * FileID))
    (by_genome : list (string * list (window * FileID))) :
  dict_wf by_genome → dict_wf (fold_left (add_gff w) items by_genome).
Proof.
  revert by_genome. induction items as [| [g0 fid0] items IH];
    intros by_genome Hwf; [done |].
  cbn [fold_left]. apply IH. by apply dict_set_wf.
Qed.

Lemma dict_set_nonempty {K V : Type} `{EqDecision K} (d : list (K * V))
    (k : K) (v : V) :
  dict_set k v d ≠ [].
Proof. destruct d as [| [k' v'] d]; simpl; [done |]. by case_decide. Qed.

Lemma add_gffs_nonempty (w : window) (items : list (string * FileID))
    (by_genome : list (string * list (window * FileID))) :
  Forall (λ e : string * list (window * FileID), e.2 ≠ []) by_genome →
  Forall (λ e : string * list (window * FileID), e.2 ≠ [])
    (fold_left (add_gff w) items by_genome).
Proof.
  revert by_genome. induction items as [| [g0 fid0] items IH];
    intros by_genome Hall; [done |].
  cbn [fold_left]. apply IH. unfold add_gff.
  apply dict_set_Forall; [| done]. intros k'. simpl. apply dict_set_nonempty.
Qed.

Lemma regroup_genomes (py : interp) (results : list chunk_result) :
  dict_wf (regroup py results).1 ∧
  Forall (λ e : string * list (window * FileID), e.2 ≠ [])
    (regroup py results).1 ∧
  ∀ g, g ∈ (regroup py results).1.*1 ↔
       ∃ r : chunk_result, r ∈ results ∧ g ∈ r.2.1.*1.
Proof.
  induction results as [| r rs (Hwf & Hne & Hkeys)] using rev_ind.
  - split; [apply NoDup_nil_2 |]. split; [done |].
    intros g. simpl. rewrite elem_of_nil. split; [done |].
    intros (r & Hr & _). by apply elem_of_nil in Hr.
  - rewrite regroup_snoc. destruct r as [w [gff_chunks out]].
    unfold merge_step. cbn [fst snd].
    split; [by apply add_gffs_wf |]. split; [by apply add_gffs_nonempty |].
    intros g. rewrite add_gffs_keys, Hkeys, (iteritems_perm py). split.
    + intros [(r & Hr & Hg) | Hg].
      * exists r. split; [| done]. apply elem_of_app. by left.
      * exists (w, (gff_chunks, out)). split; [| done].
        apply elem_of_app. right. left.
    + intros (r & Hr & Hg). apply elem_of_app in Hr as [Hr | Hr].
      * left. by exists r.
      * apply list_elem_of_singleton in Hr as ->. by right.
Qed.

Lemma merge_results_genomes (py : interp) (results : list chunk_result) :
  (merge_results py results).1.*1 ≡ₚ (regroup py results).1.*1.
Proof.
  unfold merge_results. destruct (regroup py results) as [bg ids]. simpl.
  rewrite <- list_fmap_compose.
  change ((iteritems py bg).*1 ≡ₚ bg.*1).
  by rewrite iteritems_perm.
Qed.

(** X11.  Whatever the results are, [merge_results] starts one
    [join_genes] child for each genome that has a chunk in some window,
    and no other: no genome gets two children, and no child is given an
    empty dictionary. *)
Theorem X11_one_join_per_genome (py : interp) (results : list chunk_result) :
  NoDup (merge_results py results).1.*1 ∧
  (∀ g, g ∈ (merge_results py results).1.*1 ↔
        ∃ r : chunk_result, r ∈ results ∧ g ∈ r.2.1.*1) ∧
  ∀ g gff_chunks, (g, gff_chunks) ∈ (merge_results py results).1 →
                  gff_chunks ≠ [].
Proof.
  destruct (regroup_genomes py results) as (Hwf & Hne & Hkeys).
  split; [| split].
  - rewrite merge_results_genomes. exact Hwf.
  - intros g. by rewrite merge_results_genomes.
  - intros g gff_chunks Hin.
    apply merge_results_children in Hin as [Hg ->].
    destruct (dict_get g (regroup py results).1) as [chunks |] eqn:Hget.
    + apply dict_get_Some in Hget.
      by apply (proj1 (Forall_forall _ _) Hne) in Hget.
    + apply dict_get_None in Hget. done.
Qed.

(** X12.  When two results carry the same window triple, the later one
    replaces the earlier one in [stdout_file_ids]: the dictionary answers,
    for every window, with the log of the last result that has this key.
    It has one entry for each distinct window of the list. *)
Theorem X12_stdout_last_wins (py : interp) (results : list chunk_result) :
  (∀ w, dict_get w (merge_results py results).2 =
        dict_get w (reverse (stdout_files results))) ∧
  dict_wf (merge_results py results).2 ∧
  (∀ w, w ∈ (merge_results py results).2.*1 ↔ w ∈ results.*1).
Proof.
  rewrite merge_results_stdout.
  induction results as [| r rs (Hget & Hwf & Hkeys)] using rev_ind.
  - split; [done |]. split; [apply NoDup_nil_2 | done].
  - rewrite regroup_snoc. destruct r as [w0 [gff_chunks out]].
    unfold merge_step. cbn [snd]. split; [| split].
    + intros w. rewrite dict_get_set, Hget. unfold stdout_files.
      rewrite fmap_app, reverse_app. simpl.
      by destruct (decide (w0 = w)).
    + by apply dict_set_wf.
    + intros w. rewrite dict_set_keys_elem, Hkeys, fmap_app, elem_of_app.
      simpl. rewrite list_elem_of_singleton. tauto.
Qed.

(** X13.  The same holds for the chunks: when the chunk dictionaries of
    the windows are well formed, the dictionary that [merge_results]
    builds for a genome answers, for every window, with the chunk of the
    last result that has this key and a chunk for the genome. *)
Theorem X13_chunk_last_wins (py : interp) (results : list chunk_result)
    (g : string) (w : window) :
  Forall (λ r : chunk_result, dict_wf r.2.1) results →
  dict_get w (default [] (dict_get g (regroup py results).1)) =
  dict_get w (reverse (genome_chunks g results)).
Proof.
  induction results as [| r rs IH] using rev_ind; intros Hwf; [done |].
  apply Forall_app in Hwf as [Hwfs Hwfr]. rewrite Forall_singleton in Hwfr.
  specialize (IH Hwfs).
  rewrite regroup_snoc, genome_chunks_snoc.
  destruct r as [w0 [gff_chunks out]]. unfold merge_step. cbn [fst snd] in *.
  assert (Hperm := iteritems_perm py _ _ gff_chunks).
  assert (Hwfi : dict_wf (iteritems py gff_chunks))
    by (unfold dict_wf in *; by rewrite Hperm).
  rewrite add_gffs_get by done.
  rewrite (dict_get_perm _ gff_chunks) by done.
  destruct (dict_get g gff_chunks) as [fid |].
  - simpl. rewrite dict_get_set, IH, reverse_app. simpl.
    by destruct (decide (w0 = w)).
  - by rewrite app_nil_r.
Qed.

Lemma X13_chunk_last_wins_witness :
  let w : window := ("chr1", 0, 300) in
  let results : list chunk_result :=
    [(w, ([("hg38", 0%nat)], 1%nat)); (w, ([("hg38", 2%nat)], 3%nat))] in
  dict_get w (default [] (dict_get "hg38" (regroup insertion_order results).1))
    = dict_get w (reverse (genome_chunks "hg38" results)) ∧
  dict_get w (reverse (genome_chunks "hg38" results)) = Some 2%nat.
Proof.
  intros w results. split; [| reflexivity].
  apply (X13_chunk_last_wins insertion_order results "hg38" w).
  repeat constructor; compute_done.
Defined.

(** ** One chromosome, dictionaries iterated as inserted *)

(** [omap] keeps the order of the items it keeps. *)
Lemma omap_lookup_lt {A B : Type} (f : A → option B) (l : list A)
    (i j : nat) (a b : B) :
  (i < j)%nat → omap f l !! i = Some a → omap f l !! j = Some b →
  ∃ (i' j' : nat) x y,
    (i' < j')%nat ∧ l !! i' = Some x ∧ l !! j' = Some y ∧
    f x = Some a ∧ f y = Some b.
Proof.
  revert i j. induction l as [| x l IH]; intros i j Hij Hi Hj; [done |].
  cbn [omap list_omap] in Hi, Hj. destruct (f x) as [c |] eqn:Hfx.
  - destruct i as [| i], j as [| j]; try lia; simpl in Hi, Hj.
    + injection Hi as ->.
      assert (Hb : b ∈ omap f l) by (apply list_elem_of_lookup; eauto).
      apply list_elem_of_omap in Hb as (y & Hy & Hfy).
      apply list_elem_of_lookup in Hy as [j' Hj'].
      exists 0%nat, (S j'), x, y. split; [lia | done].
    + destruct (IH i j ltac:(lia) Hi Hj)
        as (i' & j' & x' & y' & Hlt & Hx' & Hy' & Hfx' & Hfy').
      exists (S i'), (S j'), x', y'. split; [lia | done].
  - destruct (IH i j Hij Hi Hj)
      as (i' & j' & x' & y' & Hlt & Hx' & Hy' & Hfx' & Hfy').
    exists (S i'), (S j'), x', y'. split; [lia | done].
Qed.

(** X14.  For a table with a single chromosome and an interpreter that
    yields the entries of a dictionary as they were inserted, the chunks
    that [join_genes] gets for a genome are in the order of the window
    starts, strictly increasing, and the raw file and the list of files
    for [joingenes] follow that order. *)
Theorem X14_single_chromosome_order (args : Args) (chrom : string) (L : Z)
    (rv : promise → list (string * FileID) * FileID) (store : fileStore)
    (results : list (window * promise)) (genome : string)
    (gff_chunks : list (window * FileID)) :
  0 < chunksize args - overlap args →
  (∀ p, dict_wf (rv p).1) →
  planned args [(chrom, L)] = Some results →
  (genome, gff_chunks) ∈
    (merge_results insertion_order (resolve rv results)).1 →
  (∀ (i j : nat) a b,
     (i < j)%nat → gff_chunks !! i = Some a → gff_chunks !! j = Some b →
     w_start a.1 < w_start b.1) ∧
  sorted_by_start gff_chunks ∧
  join_genes insertion_order store gff_chunks =
    (λ raw, (raw, gff_chunks.*2)) <$> blocks store gff_chunks.
Proof.
  intros Hstep Hrv Hplan Hchild.
  destruct (chrom_windows args chrom L) as [e | ws] eqn:Hws;
    [rewrite chrom_windows_eq in Hws by done; discriminate |].
  rewrite planned_eq, (table_windows_single _ _ _ ws Hws) in Hplan by done.
  injection Hplan as Hres. subst results.
  set (results := imap (λ i w, (w, JCgp i)) ws) in *.
  assert (Hkeys : (resolve rv results).*1 = ws).
  { rewrite resolve_keys. apply imap_pair_fst. }
  apply merge_results_child in Hchild as [-> _].
  2: { rewrite Hkeys. by apply (chrom_windows_NoDup args Hstep chrom L). }
  2: { apply Forall_fmap, Forall_forall. intros r _. apply Hrv. }
  assert (Hlt : ∀ (i j : nat) a b,
            (i < j)%nat →
            genome_chunks genome (resolve rv results) !! i = Some a →
            genome_chunks genome (resolve rv results) !! j = Some b →
            w_start a.1 < w_start b.1).
  { intros i j a b Hij Hi Hj.
    destruct (omap_lookup_lt _ _ i j a b Hij Hi Hj)
      as (i' & j' & x & y & Hlt & Hx & Hy & Hfx & Hfy).
    assert (Hwx : ws !! i' = Some x.1).
    { rewrite <- Hkeys. etrans; [apply list_lookup_fmap |].
      exact (f_equal (fmap fst) Hx). }
    assert (Hwy : ws !! j' = Some y.1).
    { rewrite <- Hkeys. etrans; [apply list_lookup_fmap |].
      exact (f_equal (fmap fst) Hy). }
    destruct (dict_get genome x.2.1) as [fx |]; [| done].
    destruct (dict_get genome y.2.1) as [fy |]; [| done].
    simpl in Hfx, Hfy. injection Hfx as <-. injection Hfy as <-. simpl.
    apply (chrom_windows_lookup args chrom L Hstep ws i' _ Hws) in Hwx
      as [_ ->].
    apply (chrom_windows_lookup args chrom L Hstep ws j' _ Hws) in Hwy
      as [_ ->].
    window_simpl. nia. }
  split; [done |]. split.
  - intros i j a b Hij Hi Hj. specialize (Hlt i j a b Hij Hi Hj). lia.
  - apply join_genes_blocks.
Qed.

Lemma X14_single_chromosome_order_witness :
  let rv : promise → list (string * FileID) * FileID :=
    λ p, match p with
         | JCgp 0 => ([("hg38", 0%nat)], 2%nat)
         | _ => ([("hg38", 1%nat)], 3%nat)
         end in
  let gff_chunks : list (window * FileID) :=
    [(("chr1", 0, 300), 0%nat); (("chr1", 250, 250), 1%nat)] in
  let store := ["gene0"; "gene250"; "log0"; "log250"] in
  (∀ (i j : nat) a b,
     (i < j)%nat → gff_chunks !! i = Some a → gff_chunks !! j = Some b →
     w_start a.1 < w_start b.1) ∧
  sorted_by_start gff_chunks ∧
  join_genes insertion_order store gff_chunks =
    (λ raw, (raw, gff_chunks.*2)) <$> blocks store gff_chunks.
Proof.
  intros rv gff_chunks store.
  apply (X14_single_chromosome_order (mkArgs 300 50 []) "chr1" 500 rv store
           [(("chr1", 0, 300), JCgp 0); (("chr1", 250, 250), JCgp 1)]
           "hg38" gff_chunks).
  - simpl. lia.
  - intros p. unfold dict_wf. destruct p as [| | [| i] |]; compute_done.
  - reflexivity.
  - vm_compute. left.
Defined.

(** ** How much sequence the windows hold *)

Lemma chain_total_length (O : Z) (l : list window) (w wl : window) :
  0 <= O →
  (∀ (i : nat) wi wj,
     (w :: l) !! i = Some wi → (w :: l) !! S i = Some wj →
     w_start wj <= w_end wi <= w_start wj + O) →
  last (w :: l) = Some wl →
  w_end wl - w_start w <= total_length (w :: l)
    <= w_end wl - w_start w + Z.of_nat (length l) * O.
Proof.
  intros HO. revert w. induction l as [| w' l IH]; intros w Hchain Hlast.
  - simpl in Hlast. injection Hlast as <-.
    unfold total_length, w_end. simpl. lia.
  - assert (H0 := Hchain 0%nat w w' eq_refl eq_refl).
    assert (Hl : last (w' :: l) = Some wl) by (by destruct l).
    specialize (IH w' (λ i wi wj, Hchain (S i) wi wj) Hl).
    change (total_length (w :: w' :: l))
      with (w_size w + total_length (w' :: l)).
    unfold w_end in *. rewrite length_cons, Nat2Z.inj_succ. nia.
Qed.

(** X15.  On valid input the windows of a chromosome hold at least [L]
    positions in all and at most [L] plus [overlap] for each window after
    the first; without overlap they hold exactly [L]. *)
Theorem X15_total_length (args : Args) (chrom : string) (L : Z)
    (ws : list window) :
  0 <= L → 0 <= overlap args < chunksize args →
  chrom_windows args chrom L = inr ws →
  L <= total_length ws
    <= L + Z.max 0 (Z.of_nat (length ws) - 1) * overlap args ∧
  (overlap args = 0 → total_length ws = L).
Proof.
  intros HL HO Hws.
  assert (Hstep : 0 < chunksize args - overlap args) by lia.
  pose proof (λ k w, chrom_windows_lookup args chrom L Hstep ws k w Hws)
    as Hlk.
  pose proof (λ k, chrom_windows_length args chrom L Hstep ws k Hws) as Hlen.
  assert (Hbounds : L <= total_length ws
            <= L + Z.max 0 (Z.of_nat (length ws) - 1) * overlap args).
  { destruct ws as [| w l].
    - assert (Hnot : ¬ Z.of_nat 0 * (chunksize args - overlap args) < L)
        by (rewrite <- Hlen; simpl; lia).
      unfold total_length. simpl in *. lia.
    - destruct (last (w :: l)) as [wl |] eqn:Hlast;
        [| by apply last_None in Hlast].
      pose proof (chain_total_length (overlap args) l w wl (proj1 HO))
        as Htot.
      assert (Hw : w_start w = 0).
      { destruct (proj1 (Hlk 0%nat w) eq_refl) as [_ ->]. simpl.
        unfold w_start. simpl. lia. }
      assert (Hwl : w_end wl = L).
      { rewrite last_lookup in Hlast.
        assert (Hnot : ¬ Z.of_nat (length (w :: l))
                         * (chunksize args - overlap args) < L)
          by (rewrite <- Hlen; lia).
        destruct (proj1 (Hlk _ wl) Hlast) as [Hlt ->].
        simpl in Hnot, Hlt |- *. window_simpl. rewrite clip_min. nia. }
      rewrite Hw, Hwl in Htot.
      assert (Hlenl : Z.max 0 (Z.of_nat (length (w :: l)) - 1)
                      = Z.of_nat (length l)) by (simpl; lia).
      rewrite Hlenl. assert (Hgoal : L - 0 <= total_length (w :: l)
                               <= L - 0 + Z.of_nat (length l) * overlap args);
        [| lia].
      apply Htot; [| done].
      intros i wi wj Hi Hj.
      apply Hlk in Hi as [_ ->]. apply Hlk in Hj as [Hjlt ->].
      window_simpl. rewrite clip_min. rewrite Nat2Z.inj_succ in *. nia. }
  split; [done |]. intros H0. rewrite H0 in Hbounds. lia.
Qed.

Lemma X15_total_length_witness :
  let ws : list window :=
    [("chr1", 0, 300); ("chr1", 250, 300); ("chr1", 500, 300);
     ("chr1", 750, 250)] in
  total_length ws = 1150 ∧
  1000 <= total_length ws <= 1000 + Z.max 0 (Z.of_nat (length ws) - 1) * 50 ∧
  (50 = 0 → total_length ws = 1000).
Proof.
  intros ws. split; [reflexivity |].
  apply (X15_total_length (mkArgs 300 50 []) "chr1" 1000 ws);
    [lia | simpl; lia | reflexivity].
Defined.

(** ** The exported files *)

Lemma exportFile_inr (store : fileStore) (id : FileID) (path : string)
    (fs fs' : list (string * string)) :
  exportFile store id path fs = inr fs' →
  ∃ content, readGlobalFile store id = Some content ∧
             fs' = dict_set path content fs.
Proof.
  unfold exportFile. destruct (readGlobalFile store id) as [content |];
    [| discriminate].
  intros [= <-]. by exists content.
Qed.

Lemma export_genome_inr (store : fileStore)
    (raw_gtf gtf gp : list (string * string)) (fs fs' : list (string * string))
    (genome : string) (id1 id2 id3 : FileID) :
  export_genome store raw_gtf gtf gp fs (genome, (id1, id2, id3)) = inr fs' →
  ∃ p1 p2 p3 c1 c2 c3,
    dict_get genome raw_gtf = Some p1 ∧ dict_get genome gtf = Some p2 ∧
    dict_get genome gp = Some p3 ∧
    readGlobalFile store id1 = Some c1 ∧ readGlobalFile store id2 = Some c2 ∧
    readGlobalFile store id3 = Some c3 ∧
    fs' = dict_set p3 c3 (dict_set p2 c2 (dict_set p1 c1 fs)).
Proof.
  unfold export_genome.
  destruct (dict_get genome raw_gtf) as [p1 |]; [| discriminate].
  destruct (exportFile store id1 p1 fs) as [e | fs1] eqn:H1; [discriminate |].
  destruct (dict_get genome gtf) as [p2 |]; [| discriminate].
  destruct (exportFile store id2 p2 fs1) as [e | fs2] eqn:H2; [discriminate |].
  destruct (dict_get genome gp) as [p3 |]; [| discriminate].
  intros H3.
  apply exportFile_inr in H1 as (c1 & Hc1 & ->).
  apply exportFile_inr in H2 as (c2 & Hc2 & ->).
  apply exportFile_inr in H3 as (c3 & Hc3 & ->).
  by exists p1, p2, p3, c1, c2, c3.
Qed.

Lemma export_loop_inr (store : fileStore)
    (raw_gtf gtf gp : list (string * string))
    (items : list (string * (FileID * FileID * FileID)))
    (fs fs' : list (string * string)) :
  export_loop store raw_gtf gtf gp items fs = inr fs' →
  (∀ path, path ∉ export_targets raw_gtf gtf gp items →
           dict_get path fs' = dict_get path fs) ∧
  (∀ genome id1 id2 id3, (genome, (id1, id2, id3)) ∈ items →
     ∃ p1 p2 p3 c1 c2 c3,
       dict_get genome raw_gtf = Some p1 ∧ dict_get genome gtf = Some p2 ∧
       dict_get genome gp = Some p3 ∧
       readGlobalFile store id1 = Some c1 ∧
       readGlobalFile store id2 = Some c2 ∧
       readGlobalFile store id3 = Some c3 ∧
       (NoDup (export_targets raw_gtf gtf gp items) →
        dict_get p1 fs' = Some c1 ∧ dict_get p2 fs' = Some c2 ∧
        dict_get p3 fs' = Some c3)).
Proof.
  revert fs. induction items as [| [g0 [[i1 i2] i3]] rest IH]; intros fs Hrun.
  - simpl in Hrun. injection Hrun as <-. split; [done |].
    intros genome id1 id2 id3 Hin. by apply elem_of_nil in Hin.
  - cbn [export_loop] in Hrun.
    destruct (export_genome store raw_gtf gtf gp fs (g0, (i1, i2, i3)))
      as [e | fs1] eqn:Hhead; [discriminate |].
    apply export_genome_inr in Hhead
      as (p1 & p2 & p3 & c1 & c2 & c3 & Hp1 & Hp2 & Hp3 & Hc1 & Hc2 & Hc3 & ->).
    destruct (IH _ Hrun) as [Hother Hsame].
    assert (Htargets : export_targets raw_gtf gtf gp ((g0, (i1, i2, i3)) :: rest)
                       = [p1; p2; p3] ++ export_targets raw_gtf gtf gp rest).
    { unfold export_targets. rewrite bind_cons. f_equal. simpl.
      by rewrite Hp1, Hp2, Hp3. }
    rewrite Htargets. split.
    + intros path Hpath. rewrite elem_of_app in Hpath.
      rewrite Hother by tauto.
      rewrite !dict_get_set_ne; [done | | |];
        intros ->; apply Hpath; left; repeat constructor.
    + intros genome id1 id2 id3 Hin.
      apply elem_of_cons in Hin as [[= -> -> -> ->] | Hin].
      * exists p1, p2, p3, c1, c2, c3. repeat (split; [done |]).
        intros Hnd. apply NoDup_app in Hnd as (Hhead & Hdisj & Hrest).
        apply NoDup_cons in Hhead as [H12 Hhead].
        apply NoDup_cons in Hhead as [H23 _].
        rewrite elem_of_cons, list_elem_of_singleton in H12.
        rewrite list_elem_of_singleton in H23.
        rewrite !Hother by (apply Hdisj; repeat constructor).
        rewrite dict_get_set_eq.
        rewrite (dict_get_set_ne _ p3 p2) by (intros ->; tauto).
        rewrite dict_get_set_eq.
        rewrite (dict_get_set_ne _ p3 p1) by (intros ->; tauto).
        rewrite (dict_get_set_ne _ p2 p1) by (intros ->; tauto).
        rewrite dict_get_set_eq. done.
      * destruct (Hsame genome id1 id2 id3 Hin)
          as (q1 & q2 & q3 & d1 & d2 & d3 & Hq1 & Hq2 & Hq3 & Hd1 & Hd2 & Hd3
              & Hcontent).
        exists q1, q2, q3, d1, d2, d3. repeat (split; [done |]).
        intros Hnd. apply NoDup_app in Hnd as (_ & _ & Hrest).
        by apply Hcontent.
Qed.

(** X16.  When the export loop of [augustus_cgp] ends without raising,
    every genome of [results] has a path in each of the three dictionaries
    of [args] and its three files are in the store.  Files at paths that
    the loop does not write are left as they were, and when the written
    paths are pairwise different, the three paths of each genome hold the
    content of its raw file, its joined file and its genePred file. *)
Theorem X16_export_results (py : interp) (store : fileStore)
    (raw_gtf gtf gp : list (string * string))
    (results : list (string * (FileID * FileID * FileID)))
    (fs fs' : list (string * string)) :
  export_results py store raw_gtf gtf gp results fs = inr fs' →
  (∀ path, path ∉ export_targets raw_gtf gtf gp results →
           dict_get path fs' = dict_get path fs) ∧
  (∀ genome id1 id2 id3, (genome, (id1, id2, id3)) ∈ results →
     ∃ p1 p2 p3 c1 c2 c3,
       dict_get genome raw_gtf = Some p1 ∧ dict_get genome gtf = Some p2 ∧
       dict_get genome gp = Some p3 ∧
       readGlobalFile store id1 = Some c1 ∧
       readGlobalFile store id2 = Some c2 ∧
       readGlobalFile store id3 = Some c3 ∧
       (NoDup (export_targets raw_gtf gtf gp results) →
        dict_get p1 fs' = Some c1 ∧ dict_get p2 fs' = Some c2 ∧
        dict_get p3 fs' = Some c3)).
Proof.
  unfold export_results. intros Hrun.
  apply export_loop_inr in Hrun as [Hother Hsame].
  assert (Hperm : export_targets raw_gtf gtf gp (iteritems py results)
                  ≡ₚ export_targets raw_gtf gtf gp results).
  { unfold export_targets. by rewrite iteritems_perm. }
  split.
  - intros path Hpath. apply Hother. by rewrite Hperm.
  - intros genome id1 id2 id3 Hin.
    destruct (Hsame genome id1 id2 id3)
      as (p1 & p2 & p3 & c1 & c2 & c3 & Hp1 & Hp2 & Hp3 & Hc1 & Hc2 & Hc3
          & Hcontent); [by rewrite iteritems_perm |].
    exists p1, p2, p3, c1, c2, c3. repeat (split; [done |]).
    intros Hnd. apply Hcontent. by rewrite Hperm.
Qed.

Lemma X16_export_results_witness :
  let store := ["raw"; "joined"; "genepred"] in
  let raw_gtf := [("hg38", "out/hg38.raw.gtf")] in
  let gtf := [("hg38", "out/hg38.gtf")] in
  let gp := [("hg38", "out/hg38.gp")] in
  let results := [("hg38", (0%nat, 1%nat, 2%nat))] in
  let fs := [("notes.txt", "kept")] in
  let fs' := [("notes.txt", "kept"); ("out/hg38.raw.gtf", "raw");
              ("out/hg38.gtf", "joined"); ("out/hg38.gp", "genepred")] in
  export_results insertion_order store raw_gtf gtf gp results fs = inr fs' ∧
  (∀ path, path ∉ export_targets raw_gtf gtf gp results →
           dict_get path fs' = dict_get path fs) ∧
  (∀ genome id1 id2 id3, (genome, (id1, id2, id3)) ∈ results →
     ∃ p1 p2 p3 c1 c2 c3,
       dict_get genome raw_gtf = Some p1 ∧ dict_get genome gtf = Some p2 ∧
       dict_get genome gp = Some p3 ∧
       readGlobalFile store id1 = Some c1 ∧
       readGlobalFile store id2 = Some c2 ∧
       readGlobalFile store id3 = Some c3 ∧
       (NoDup (export_targets raw_gtf gtf gp results) →
        dict_get p1 fs' = Some c1 ∧ dict_get p2 fs' = Some c2 ∧
        dict_get p3 fs' = Some c3)).
Proof.
  intros store raw_gtf gtf gp results fs fs'. split; [reflexivity |].
  apply (X16_export_results insertion_order store raw_gtf gtf gp results
           fs fs').
  reflexivity.
Defined.

(** ** Coverage of a whole table *)

(** The windows of one chromosome hold exactly the positions from 0 to
    [L], whatever the sign of [L]. *)
Lemma chrom_windows_covers (args : Args) (chrom : string) (L : Z)
    (ws : list window) (x : Z) :
  0 <= overlap args < chunksize args →
  chrom_windows args chrom L = inr ws →
  0 <= x < L ↔ ∃ w, w ∈ ws ∧ covers w x.
Proof.
  intros HO Hws.
  assert (Hstep : 0 < chunksize args - overlap args) by lia.
  pose proof (λ k w, chrom_windows_lookup args chrom L Hstep ws k w Hws)
    as Hlk.
  set (step := chunksize args - overlap args) in *.
  split.
  - intros Hx. set (k := Z.to_nat (x / step)).
    assert (Hq : 0 <= x / step) by (apply Z.div_pos; lia).
    assert (Hlo : step * (x / step) <= x) by (apply Z.mul_div_le; lia).
    assert (Hhi : x < step * Z.succ (x / step))
      by (apply Z.mul_succ_div_gt; lia).
    exists (chrom, Z.of_nat k * step, clip args L (Z.of_nat k * step)).
    split.
    + apply list_elem_of_lookup. exists k. apply Hlk. split; [| done].
      subst k. rewrite Z2Nat.id by done. lia.
    + window_simpl. rewrite clip_min. subst k. rewrite Z2Nat.id by done.
      lia.
  - intros (w & Hin & Hcov). apply list_elem_of_lookup in Hin as [k Hk].
    apply Hlk in Hk as [Hlt ->]. window_simpl.
    rewrite clip_min in Hcov. lia.
Qed.

Lemma table_windows_elem (args : Args) (chrom_sizes : list (string * Z))
    (w : window) :
  chunksize args ≠ overlap args →
  w ∈ table_windows args chrom_sizes ↔
  ∃ chrom L ws, (chrom, L) ∈ chrom_sizes ∧
                chrom_windows args chrom L = inr ws ∧ w ∈ ws.
Proof.
  intros Hne. unfold table_windows. rewrite list_elem_of_bind. split.
  - intros ([chrom L] & Hw & Hline). simpl in Hw.
    destruct (chrom_windows args chrom L) as [e | ws] eqn:Hws;
      [by apply elem_of_nil in Hw |].
    by exists chrom, L, ws.
  - intros (chrom & L & ws & Hline & Hws & Hw). exists (chrom, L).
    simpl. by rewrite Hws.
Qed.

(** X17.  On a table that lists no chromosome twice, with a non-negative
    overlap smaller than the chunk size, the planned windows that carry
    the name of a chromosome hold exactly the positions of that
    chromosome, from 0 to its length, and every planned window lies within
    the chromosome it names. *)
Theorem X17_table_coverage (args : Args) (chrom_sizes : list (string * Z))
    (results : list (window * promise)) :
  0 <= overlap args < chunksize args →
  NoDup chrom_sizes.*1 →
  planned args chrom_sizes = Some results →
  (∀ chrom L x, (chrom, L) ∈ chrom_sizes →
     0 <= x < L ↔
     ∃ w, w ∈ results.*1 ∧ w_chrom w = chrom ∧ covers w x) ∧
  (∀ w, w ∈ results.*1 →
     ∃ L, (w_chrom w, L) ∈ chrom_sizes ∧
          0 <= w_start w ∧ w_start w < w_end w ∧ w_end w <= L).
Proof.
  intros HO Hnd Hplan.
  assert (Hstep : 0 < chunksize args - overlap args) by lia.
  assert (Hne : chunksize args ≠ overlap args) by lia.
  rewrite planned_eq in Hplan by done. injection Hplan as <-.
  rewrite imap_pair_fst.
  assert (Hline : ∀ c L L', (c, L) ∈ chrom_sizes → (c, L') ∈ chrom_sizes →
                            L = L').
  { intros c L L' H1 H2.
    apply list_elem_of_lookup in H1 as [i1 Hi1].
    apply list_elem_of_lookup in H2 as [i2 Hi2].
    assert (i1 = i2) as <-; [| congruence].
    apply (NoDup_lookup _ _ _ c Hnd); rewrite list_lookup_fmap.
    - by rewrite Hi1.
    - by rewrite Hi2. }
  split.
  - intros chrom L x Hin.
    destruct (chrom_windows args chrom L) as [e | ws] eqn:Hws;
      [rewrite chrom_windows_eq in Hws by done; discriminate |].
    rewrite (chrom_windows_covers args chrom L ws x HO Hws). split.
    + intros (w & Hw & Hcov). exists w. split; [| split; [| done]].
      * apply table_windows_elem; [done |]. by exists chrom, L, ws.
      * by apply (chrom_windows_chrom args Hstep chrom L ws).
    + intros (w & Hw & Hc & Hcov). exists w. split; [| done].
      apply table_windows_elem in Hw as (c' & L' & ws' & Hin' & Hws' & Hw');
        [| done].
      assert (c' = chrom) as ->.
      { rewrite <- Hc. symmetry.
        by apply (chrom_windows_chrom args Hstep c' L' ws'). }
      rewrite (Hline chrom L' L Hin' Hin) in Hws'. congruence.
  - intros w Hw.
    apply table_windows_elem in Hw as (c & L & ws & Hin & Hws & Hw); [| done].
    exists L. rewrite (chrom_windows_chrom args Hstep c L ws w Hws Hw).
    split; [done |].
    apply list_elem_of_lookup in Hw as [k Hk].
    apply (chrom_windows_lookup args c L Hstep ws k w Hws) in Hk as [Hlt ->].
    window_simpl. rewrite clip_min. nia.
Qed.

Lemma X17_table_coverage_witness :
  let results :=
    [(("chr1", 0, 300), JCgp 0); (("chr1", 250, 250), JCgp 1);
     (("chr2", 0, 100), JCgp 2)] in
  let chrom_sizes := [("chr1", 500); ("chr2", 100)] in
  (∀ chrom L x, (chrom, L) ∈ chrom_sizes →
     0 <= x < L ↔
     ∃ w, w ∈ results.*1 ∧ w_chrom w = chrom ∧ covers w x) ∧
  (∀ w, w ∈ results.*1 →
     ∃ L, (w_chrom w, L) ∈ chrom_sizes ∧
          0 <= w_start w ∧ w_start w < w_end w ∧ w_end w <= L).
Proof.
  intros results chrom_sizes.
  apply (X17_table_coverage (mkArgs 300 50 []) chrom_sizes results).
  - simpl. lia.
  - compute_done.
  - reflexivity.
Defined.

(** ** [setup] on rows that may be malformed *)








